(** * Speactive: the reactivity engine, embedded and verified

    Sources embedded here:
    - [remember]  (the observable store: Proxy [set]/[get] traps, the
      subscriber [Map], registration through [rememberSymbol] and
      [forgetSymbol]);
    - [Component] (constructor, [setInnerText], [setAttribute],
      [setCSSStyle], [destroy]);
    - [delegate]  (lib/delegate.ts).

    Modelling conventions.
    - JavaScript values are the inductive [value]: primitives, arrays, plain
      objects (own enumerable properties in enumeration order), references
      to remembered proxies, and the values every plain object inherits:
      the built-in functions of [Object.prototype] and that object itself.
    - A plain object (a data-source object, a descriptor entry, a data
      record) is the table of its own properties, in the order JavaScript
      enumerates them (array indices first and ascending, then names by
      creation), on top of [Object.prototype]: a read [o[k]] or a test
      [k in o] under a name the object does not own finds what
      [Object.prototype] holds under that name.  No object gets another
      prototype: a write under the name [__proto__], which would run the
      inherited setter, is outside what is modelled and is treated as the
      write of an ordinary property.
    - Heap objects with identity (stores, components, elements) are addressed
      by natural numbers; allocation appends to the heap.
    - Effects are explicit: every operation is a computation [M A] that takes
      the world, returns a normal result or a thrown error, the new world and
      the list of events it emitted (render-surface calls, console output and
      updater invocations).  State changes made before a throw persist, as in
      JavaScript.
    - An updater is either one of the three built-in closures or an opaque
      user-written one.  A data source is user code that reads the stores
      and returns a value or throws; user-written updaters and data sources
      do not write to stores (no re-entrancy). *)

From stdpp Require Import gmap strings list fin_maps pretty.


(** ** Values *)

(** The built-in functions that [Object.prototype] holds: [Object] itself
    under [constructor], and the methods every object inherits. *)
Inductive builtin : Type :=
  | Object_constructor
  | defineGetter
  | defineSetter
  | hasOwnProperty
  | lookupGetter
  | lookupSetter
  | isPrototypeOf
  | propertyIsEnumerable
  | toString
  | valueOf
  | toLocaleString.

#[warnings="-register-all"]
Inductive value : Type :=
  | VUndefined
  | VNull
  | VBool (b : bool)
  | VNum (n : Z)
  | VStr (s : string)
  | VStore (s : nat)
  | VArray (xs : list value)
  | VObject (props : list (string * value))
  | VFunction (b : builtin)
  | VObjectPrototype.

(** What a call can throw: a [TypeError] of the language, or whatever value
    user code throws. *)
Inductive error : Type :=
  | TypeError (msg : string)
  | Thrown (v : value).

Inductive result (A : Type) : Type :=
  | Ok (a : A)
  | Throw (e : error).
Arguments Ok {A} a.
Arguments Throw {A} e.

(** The key under which a descriptor entry holds its store. *)
Definition remember_key : string := "_#remember".

(** [v === null || v === undefined] *)
Definition nullish (v : value) : bool :=
  match v with
  | VUndefined | VNull => true
  | _ => false
  end.

(** Keyed lookup in an ordered table: the own property [k] of a plain
    object, [Map.prototype.get] on a [Map]. *)
Fixpoint assoc_get {K V : Type} `{EqDecision K} (k : K) (props : list (K * V))
  : option V :=
  match props with
  | [] => None
  | (k', v) :: rest => if decide (k = k') then Some v else assoc_get k rest
  end.

(** [Map.prototype.set]: an existing key keeps its place, a new key goes
    last.  Also the write of a property that the object owns already. *)
Fixpoint assoc_set {K V : Type} `{EqDecision K} (k : K) (v : V)
    (props : list (K * V)) : list (K * V) :=
  match props with
  | [] => [(k, v)]
  | (k', v') :: rest =>
      if decide (k = k') then (k, v) :: rest else (k', v') :: assoc_set k v rest
  end.

(** ** Plain objects *)

(** The array index a property name denotes, if any: the canonical decimal
    numeral of an integer below [2^32 - 1]. *)
Definition digit_of (a : Ascii.ascii) : option N :=
  let n := Ascii.N_of_ascii a in
  if decide (48 ≤ n ≤ 57)%N then Some (n - 48)%N else None.

Fixpoint digits_value (acc : N) (s : string) : option N :=
  match s with
  | EmptyString => Some acc
  | String a rest =>
      match digit_of a with
      | Some d => digits_value (10 * acc + d) rest
      | None => None
      end
  end.

Definition array_index (k : string) : option N :=
  match digits_value 0 k with
  | Some n => if decide (pretty n = k ∧ (n < 4294967295)%N) then Some n else None
  | None => None
  end.

(** A new property [k] is enumerated before the existing property [k']:
    array indices come first, in ascending order; other names come after
    them, in the order of their creation. *)
Definition enumerated_before (k k' : string) : bool :=
  match array_index k, array_index k' with
  | Some n, Some n' => bool_decide (n < n')%N
  | Some _, None => true
  | None, _ => false
  end.

(** The creation of the own property [k]. *)
Fixpoint obj_insert {V : Type} (k : string) (v : V) (props : list (string * V))
  : list (string * V) :=
  match props with
  | [] => [(k, v)]
  | (k', v') :: rest =>
      if enumerated_before k k' then (k, v) :: (k', v') :: rest
      else (k', v') :: obj_insert k v rest
  end.

(** The write [o[k] = v] on an extensible plain object with writable
    properties: an own property keeps its place, a new one is created. *)
Definition obj_set {V : Type} (k : string) (v : V) (props : list (string * V))
  : list (string * V) :=
  match assoc_get k props with
  | Some _ => assoc_set k v props
  | None => obj_insert k v props
  end.

(** The properties of [Object.prototype], which a plain object inherits.
    [__proto__] is an accessor: read on a plain object it gives the object's
    prototype, [Object.prototype] itself. *)
Definition Object_prototype : list (string * value) :=
  [ ("constructor", VFunction Object_constructor);
    ("__defineGetter__", VFunction defineGetter);
    ("__defineSetter__", VFunction defineSetter);
    ("hasOwnProperty", VFunction hasOwnProperty);
    ("__lookupGetter__", VFunction lookupGetter);
    ("__lookupSetter__", VFunction lookupSetter);
    ("isPrototypeOf", VFunction isPrototypeOf);
    ("propertyIsEnumerable", VFunction propertyIsEnumerable);
    ("toString", VFunction toString);
    ("valueOf", VFunction valueOf);
    ("__proto__", VObjectPrototype);
    ("toLocaleString", VFunction toLocaleString) ].

Definition inherited (k : string) : option value := assoc_get k Object_prototype.

(** The read [o[k]] on a plain object: the own property, else the inherited
    one, else [undefined]. *)
Definition obj_get (k : string) (props : list (string * value)) : value :=
  match assoc_get k props with
  | Some v => v
  | None => default VUndefined (inherited k)
  end.

(** [k in o] for a plain object: own or inherited. *)
Definition obj_has (k : string) (props : list (string * value)) : bool :=
  bool_decide (is_Some (assoc_get k props)) || bool_decide (is_Some (inherited k)).

(** [f()] for a built-in function of [Object.prototype], called as the
    library calls what it read from a data-source object: with no argument
    and, the code being strict, with [this] undefined. *)
Definition call_builtin (b : builtin) : result value :=
  match b with
  | Object_constructor => Ok (VObject [])
  | toString => Ok (VStr "[object Undefined]")
  | isPrototypeOf => Ok (VBool false)
  | defineGetter | defineSetter | hasOwnProperty | lookupGetter | lookupSetter
  | propertyIsEnumerable | valueOf | toLocaleString =>
      Throw (TypeError "Cannot convert undefined or null to object")
  end.

(** [v()] for a value that is not a user-written function. *)
Definition call_value (v : value) : result value :=
  match v with
  | VFunction b => call_builtin b
  | _ => Throw (TypeError "not a function")
  end.

(** ** Array and string helpers *)

(** The property name of array index [i]. *)
Definition index_key (i : nat) : string := pretty i.

(** The (key, value) pairs a [for ... in] loop over an array sees. *)
Definition array_entries (xs : list value) : list (string * value) :=
  imap (λ i x, (index_key i, x)) xs.

Fixpoint string_chars (s : string) : list value :=
  match s with
  | EmptyString => []
  | String a rest => VStr (String a EmptyString) :: string_chars rest
  end.

(** [String.prototype.includes] with a string argument. *)
Fixpoint string_includes (s p : string) : bool :=
  String.prefix p s ||
  match s with
  | EmptyString => false
  | String _ rest => string_includes rest p
  end.

(** [Array.prototype.includes] with a string argument (SameValueZero: only
    an equal string primitive matches). *)
Definition array_includes (xs : list value) (p : string) : bool :=
  existsb (λ x, match x with VStr s => bool_decide (s = p) | _ => false end) xs.

(** [v?.includes(p)]: short-circuits to [undefined] (falsy) on a nullish
    receiver, calls the method on arrays and strings, and is a [TypeError]
    on every other receiver, whose [includes] is not a function. *)
Definition opt_includes (v : value) (p : string) : result bool :=
  match v with
  | VUndefined | VNull => Ok false
  | VArray xs => Ok (array_includes xs p)
  | VStr s => Ok (string_includes s p)
  | _ => Throw (TypeError "includes is not a function")
  end.

(** ** Heap objects *)

(** A property of the wrapped data record. *)
Record property : Type := Property {
  pvalue : value;
  writable : bool
}.

(** The [initialData] object behind the proxy. *)
Record target_obj : Type := Target {
  tprops : list (string * property);
  extensible : bool
}.

(** A remembered object: the proxy target [initialData] and the closure variable
    [subscribers], a [Map] from component identity to the registered
    argument, in insertion order. *)
Record store : Type := Store {
  initialData : target_obj;
  subscribers : list (nat * value)
}.

(** A data source [() => Fields[key] | undefined]: user code that may read
    the stores, and returns a value or throws. *)
Abbreviation datasource := (list store → result value).

(** Updater closures.  The built-in ones capture [this], [fieldName] and
    [element] (and the attribute or style name). *)
Inductive updater : Type :=
  | UInnerText (this : nat) (fieldName : string) (element : nat)
  | UAttribute (this : nat) (attributeName fieldName : string) (element : nat)
  | UCSSStyle (this : nat) (style fieldName : string) (element : nat)
  | UCustom (tag : nat).

Record component : Type := Component {
  dataSources : gmap string datasource;
  updaters : gmap string updater;
  root : nat;
  remembered : value
}.

Record world : Type := World {
  stores : list store;
  components : list component;
  next_element : nat
}.

Definition empty_world : world :=
  {| stores := []; components := []; next_element := 0 |}.

(** ** Events *)

Inductive event : Type :=
  | EConsoleLog (msg : string)
  | ECreateElement (tag : string) (el : nat)
  | ERemove (el : nat)
  | ESetInnerText (el : nat) (v : value)
  | ESetAttribute (el : nat) (name : string) (v : value)
  | ERemoveAttribute (el : nat) (name : string)
  | ESetStyle (el : nat) (style : string) (v : value)
  | EInvoke (c : nat) (field : string) (arg : value).

(** [EInvoke c f a]: the updater held (or about to be held) by component [c]
    for field [f] is called with argument [a]. *)
Definition is_invoke_of (c : nat) (e : event) : bool :=
  match e with
  | EInvoke c' _ _ => bool_decide (c' = c)
  | _ => false
  end.

Definition is_invoke_for (c : nat) (f : string) (e : event) : bool :=
  match e with
  | EInvoke c' f' _ => bool_decide (c' = c) && bool_decide (f' = f)
  | _ => false
  end.

Definition is_invoke (e : event) : bool :=
  match e with
  | EInvoke _ _ _ => true
  | _ => false
  end.

Definition is_render (e : event) : bool :=
  match e with
  | EConsoleLog _ | EInvoke _ _ _ => false
  | _ => true
  end.

(** ** The computation monad *)

Definition M (A : Type) : Type := world → result A * world * list event.

Definition ret {A} (a : A) : M A := λ w, (Ok a, w, []).

Definition bind {A B} (m : M A) (k : A → M B) : M B :=
  λ w,
    match m w with
    | (Ok a, w1, e1) =>
        match k a w1 with
        | (r, w2, e2) => (r, w2, e1 ++ e2)
        end
    | (Throw err, w1, e1) => (Throw err, w1, e1)
    end.

Definition throw {A} (err : error) : M A := λ w, (Throw err, w, []).
Definition emit (e : event) : M unit := λ w, (Ok tt, w, [e]).
Definition get_world : M world := λ w, (Ok w, w, []).
Definition lift {A} (r : result A) : M A := λ w, (r, w, []).

Notation "x <- m ;; k" := (bind m (λ x, k))
  (at level 100, m at next level, right associativity).
Notation "m ;;; k" := (bind m (λ _, k))
  (at level 100, k at level 200, right associativity).

(** [for (const x of xs) body(x)] *)
Fixpoint for_each {A} (xs : list A) (body : A → M unit) : M unit :=
  match xs with
  | [] => ret tt
  | x :: rest => body x ;;; for_each rest body
  end.

Definition outcome {A} (x : result A * world * list event) : result A := x.1.1.
Definition final {A} (x : result A * world * list event) : world := x.1.2.
Definition events {A} (x : result A * world * list event) : list event := x.2.

(** [Map.prototype.delete] *)
Definition assoc_delete {K V : Type} `{EqDecision K} (k : K) (m : list (K * V))
  : list (K * V) :=
  filter (λ kv, kv.1 ≠ k) m.

(** The entries a table holds for [k]. *)
Definition entries_for {K V : Type} `{EqDecision K} (k : K) (m : list (K * V))
  : list (K * V) :=
  filter (λ kv, kv.1 = k) m.

(** ** Property access on values *)

Definition array_get (xs : list value) (k : string) : value :=
  if decide (k = "length") then VNum (Z.of_nat (length xs))
  else default VUndefined (assoc_get k (array_entries xs)).

(** [Reflect.get(target, p, target)] on the data record: the own property,
    else the inherited one. *)
Definition Reflect_get (t : target_obj) (p : string) : value :=
  match assoc_get p (tprops t) with
  | Some pr => pvalue pr
  | None => default VUndefined (inherited p)
  end.

(** [Reflect.set(target, p, newValue, target)]: the updated record and the
    boolean the call returns.  A non-writable property, or a new property on
    a non-extensible record, is left alone and reported as [false]. *)
Definition Reflect_set (t : target_obj) (p : string) (newValue : value)
  : target_obj * bool :=
  match assoc_get p (tprops t) with
  | Some pr =>
      if writable pr
      then ({| tprops := obj_set p (Property newValue true) (tprops t);
               extensible := extensible t |}, true)
      else (t, false)
  | None =>
      if extensible t
      then ({| tprops := obj_set p (Property newValue true) (tprops t);
               extensible := extensible t |}, true)
      else (t, false)
  end.

(** The names a [for (field in v)] loop visits. *)
Definition own_keys (h : list store) (v : value) : list string :=
  match v with
  | VArray xs => (array_entries xs).*1
  | VObject props => props.*1
  | VStr s => (array_entries (string_chars s)).*1
  | VStore s =>
      match h !! s with
      | Some st => (tprops (initialData st)).*1
      | None => []
      end
  | _ => []
  end.

(** The property read [v[k]] as the library makes it: under a name that a
    [for ... in] loop over [v] has produced, or under ['_#remember'], which
    no built-in prototype defines.  Reading a property of [null] or
    [undefined] throws. *)
Definition get_prop (h : list store) (v : value) (k : string) : result value :=
  match v with
  | VUndefined | VNull => Throw (TypeError "cannot read properties of a nullish value")
  | VArray xs => Ok (array_get xs k)
  | VObject props => Ok (obj_get k props)
  | VStr s => Ok (array_get (string_chars s) k)
  | VStore s =>
      match h !! s with
      | Some st => Ok (Reflect_get (initialData st) k)
      | None => Ok VUndefined
      end
  | _ => Ok VUndefined
  end.

(** ** The observable store ([remember]) *)

Definition get_store (s : nat) : M store :=
  λ w,
    match stores w !! s with
    | Some st => (Ok st, w, [])
    | None => (Throw (TypeError "not a remembered object"), w, [])
    end.

Definition get_component (c : nat) : M component :=
  λ w,
    match components w !! c with
    | Some comp => (Ok comp, w, [])
    | None => (Throw (TypeError "not a component"), w, [])
    end.

Definition set_target (s : nat) (t : target_obj) : M unit :=
  λ w,
    (Ok tt,
     {| stores := alter (λ st, Store t (subscribers st)) s (stores w);
        components := components w;
        next_element := next_element w |},
     []).

Definition set_subscribers (s : nat) (f : list (nat * value) → list (nat * value))
  : M unit :=
  λ w,
    (Ok tt,
     {| stores := alter (λ st, Store (initialData st) (f (subscribers st))) s (stores w);
        components := components w;
        next_element := next_element w |},
     []).

(** [remember(initialData)]: a fresh store with no subscribers. *)
Definition remember (initialData : target_obj) : M nat :=
  λ w,
    (Ok (length (stores w)),
     {| stores := stores w ++ [Store initialData []];
        components := components w;
        next_element := next_element w |},
     [EConsoleLog "Hello World!"]).

(** The function the [get] trap returns for [rememberSymbol]:
    [subscribers.set(component, remembered)]. *)
Definition rememberSymbol (s : nat) (component : nat) (remembered : value) : M unit :=
  get_store s ;;; set_subscribers s (assoc_set component remembered).

(** The function the [get] trap returns for [forgetSymbol]:
    [subscribers.delete(component)]. *)
Definition forgetSymbol (s : nat) (component : nat) : M unit :=
  get_store s ;;; set_subscribers s (assoc_delete component).

(** The [get] trap for an ordinary property name. *)
Definition store_get (s : nat) (p : string) : M value :=
  st <- get_store s ;; ret (Reflect_get (initialData st) p).

(** The body of the first inner loop of the [set] trap:
    [[
      for (const field in subscriber[1]) {
        if (field === '_#remember') continue;
        if (subscriber[1][field]?.includes(p)) fieldsToUpdate.push(field);
      }
    ]]
    over the names [keys] still to visit. *)
Fixpoint collect_fields (h : list store) (d : value) (p : string)
    (keys : list string) : result (list string) :=
  match keys with
  | [] => Ok []
  | field :: rest =>
      if decide (field = remember_key) then collect_fields h d p rest
      else
        match get_prop h d field with
        | Throw e => Throw e
        | Ok deps =>
            match opt_includes deps p with
            | Throw e => Throw e
            | Ok b =>
                match collect_fields h d p rest with
                | Throw e => Throw e
                | Ok fs => Ok (if b then field :: fs else fs)
                end
            end
        end
  end.

Definition fields_to_update (h : list store) (d : value) (p : string)
  : result (list string) :=
  collect_fields h d p (own_keys h d).

(** What the read [this.dataSources[fieldName]] finds when it is not
    [undefined]: a data source of the component's own, or the property of
    that name which the data-source object inherits from
    [Object.prototype]. *)
Inductive found : Type :=
  | OwnSource (dataSource : datasource)
  | Inherited (v : value).

(** [this.dataSources[fieldName]] *)
Definition lookup_data_source (comp : component) (fieldName : string)
  : option found :=
  match dataSources comp !! fieldName with
  | Some dataSource => Some (OwnSource dataSource)
  | None => Inherited <$> inherited fieldName
  end.

(** [dataSource()], in the heap [h] of stores. *)
Definition call_data_source (dataSource : found) (h : list store) : result value :=
  match dataSource with
  | OwnSource f => f h
  | Inherited v => call_value v
  end.

(** Running an updater closure.  What the lookup finds is a function or an
    object, so that [if (!dataSource) return;] returns only when it finds
    nothing. *)
Definition run_updater (u : updater) : M unit :=
  match u with
  | UInnerText this fieldName element =>
      comp <- get_component this ;;
      match lookup_data_source comp fieldName with
      | None => ret tt
      | Some dataSource =>
          w <- get_world ;;
          data <- lift (call_data_source dataSource (stores w)) ;;
          emit (ESetInnerText element data)
      end
  | UAttribute this attributeName fieldName element =>
      comp <- get_component this ;;
      match lookup_data_source comp fieldName with
      | None => ret tt
      | Some dataSource =>
          w <- get_world ;;
          data <- lift (call_data_source dataSource (stores w)) ;;
          if nullish data then emit (ERemoveAttribute element attributeName)
          else emit (ESetAttribute element attributeName data)
      end
  | UCSSStyle this style fieldName element =>
      comp <- get_component this ;;
      match lookup_data_source comp fieldName with
      | None => ret tt
      | Some dataSource =>
          w <- get_world ;;
          data <- lift (call_data_source dataSource (stores w)) ;;
          if nullish data then emit (ESetStyle element style (VStr ""))
          else emit (ESetStyle element style data)
      end
  | UCustom _ => ret tt
  end.

(** A call [updater(arg)] of the updater that component [c] holds, or is
    about to hold, for [field]: the call is recorded, then the closure runs. *)
Definition call_updater (c : nat) (field : string) (u : updater) (arg : value)
  : M unit :=
  emit (EInvoke c field arg) ;;; run_updater u.

(** [subscriber[0].updaters.get(field)?.(oldValue)] *)
Definition invoke_field (c : nat) (oldValue : value) (field : string) : M unit :=
  comp <- get_component c ;;
  match updaters comp !! field with
  | Some u => call_updater c field u oldValue
  | None => ret tt
  end.

(** The body of [for (const subscriber of subscribers)]. *)
Definition notify_subscriber (p : string) (oldValue : value)
    (subscriber : nat * value) : M unit :=
  w <- get_world ;;
  fieldsToUpdate <- lift (fields_to_update (stores w) subscriber.2 p) ;;
  for_each fieldsToUpdate (invoke_field subscriber.1 oldValue).

(** The notification pass of the [set] trap. *)
Definition notify (s : nat) (p : string) (oldValue : value) : M unit :=
  st <- get_store s ;;
  for_each (subscribers st) (notify_subscriber p oldValue).

(** The [set] trap. *)
Definition store_set (s : nat) (p : string) (newValue : value) : M bool :=
  st <- get_store s ;;
  let oldValue := Reflect_get (initialData st) p in
  let written := Reflect_set (initialData st) p newValue in
  set_target s written.1 ;;;
  for_each (subscribers st) (notify_subscriber p oldValue) ;;;
  ret written.2.

(** ** The component base class *)

(** [document.createElement(rootTag)] *)
Definition createElement (tag : string) : M nat :=
  λ w,
    (Ok (next_element w),
     {| stores := stores w;
        components := components w;
        next_element := S (next_element w) |},
     [ECreateElement tag (next_element w)]).

Definition alloc_component (comp : component) : M nat :=
  λ w,
    (Ok (length (components w)),
     {| stores := stores w;
        components := components w ++ [comp];
        next_element := next_element w |},
     []).

Definition modify_component (c : nat) (f : component → component) : M unit :=
  λ w,
    (Ok tt,
     {| stores := stores w;
        components := alter f c (components w);
        next_element := next_element w |},
     []).

(** The values a [for (const x of v)] loop visits; only arrays and strings
    are iterable here. *)
Definition iterate (v : value) : result (list value) :=
  match v with
  | VArray xs => Ok xs
  | VStr s => Ok (string_chars s)
  | _ => Throw (TypeError "not iterable")
  end.

(** [remembered['_#remember']], which must be a remembered object for the
    symbol-keyed call that follows to succeed. *)
Definition entry_store (r : value) : M nat :=
  w <- get_world ;;
  x <- lift (get_prop (stores w) r remember_key) ;;
  match x with
  | VStore s => ret s
  | _ => throw (TypeError "not a remembered object")
  end.

(** [new Component(dataSources, rootTag, remembered)].  The whole argument
    [this.remembered] is what each store receives. *)
Definition new_Component (ds : gmap string datasource) (rootTag : string)
    (rem : value) : M nat :=
  el <- createElement rootTag ;;
  this <- alloc_component
            {| dataSources := ds; updaters := ∅; root := el; remembered := rem |} ;;
  items <- lift (iterate rem) ;;
  for_each items (λ r, s <- entry_store r ;; rememberSymbol s this rem) ;;;
  ret this.

(** [this.updaters.set(fieldName, updater)] *)
Definition updaters_set (this : nat) (fieldName : string) (u : updater) : M unit :=
  get_component this ;;;
  modify_component this
    (λ c, {| dataSources := dataSources c;
             updaters := <[fieldName := u]> (updaters c);
             root := root c;
             remembered := remembered c |}).

(** The tail the three binding methods share:
    [[ updater(); this.updaters.set(fieldName, updater); ]] *)
Definition setUpdater (this : nat) (fieldName : string) (u : updater) : M unit :=
  call_updater this fieldName u VUndefined ;;;
  updaters_set this fieldName u.

(** The optional parameter [element = this.root]. *)
Definition element_or_root (this : nat) (element : option nat) : M nat :=
  comp <- get_component this ;; ret (default (root comp) element).

Definition setInnerText (this : nat) (fieldName : string) (element : option nat)
  : M unit :=
  el <- element_or_root this element ;;
  setUpdater this fieldName (UInnerText this fieldName el).

Definition setAttribute (this : nat) (attributeName fieldName : string)
    (element : option nat) : M unit :=
  el <- element_or_root this element ;;
  setUpdater this fieldName (UAttribute this attributeName fieldName el).

Definition setCSSStyle (this : nat) (style fieldName : string)
    (element : option nat) : M unit :=
  el <- element_or_root this element ;;
  setUpdater this fieldName (UCSSStyle this style fieldName el).

(** [Object.assign(target, source)] on data-source objects: every own
    property of [source] is copied onto [target]; nothing is removed. *)
Definition Object_assign (tgt src : gmap string datasource) : gmap string datasource :=
  src ∪ tgt.

(** [destroy()] *)
Definition destroy (this : nat) : M unit :=
  comp <- get_component this ;;
  emit (ERemove (root comp)) ;;;
  modify_component this
    (λ c, {| dataSources := dataSources c;
             updaters := ∅;
             root := root c;
             remembered := remembered c |}) ;;;
  modify_component this
    (λ c, {| dataSources := Object_assign (dataSources c) ∅;
             updaters := updaters c;
             root := root c;
             remembered := remembered c |}) ;;;
  items <- lift (iterate (remembered comp)) ;;
  for_each items (λ r, s <- entry_store r ;; forgetSymbol s this).

(** ** Delegation *)

Record field_mapping : Type := Mapping {
  source : string;
  target : string
}.

(** A descriptor entry: a plain object with the store under ['_#remember']
    and a dependency list under each field name. *)
Abbreviation entry := (list (string * value)).

(** The object built by the [map] callback of [delegate]. *)
Definition delegate_entry (fields : list field_mapping) (r : entry) : entry :=
  foldl (λ newRemembered field,
           obj_set (target field) (obj_get (source field) r) newRemembered)
        [(remember_key, obj_get remember_key r)]
        fields.

(** The [filter] callback of [delegate]:
    [fields.some((field) => field.source in remembered)]. *)
Definition delegate_keeps (fields : list field_mapping) (r : entry) : bool :=
  existsb (λ field, obj_has (source field) r) fields.

Definition delegate (rememberedArg : list entry) (fields : list field_mapping)
  : list entry :=
  map (delegate_entry fields) (List.filter (delegate_keeps fields) rememberedArg).

(** A descriptor as a JavaScript value. *)
Definition descriptor (d : list entry) : value := VArray (VObject <$> d).

(** ** Delegation on the object heap

    Descriptor entries are objects with identity.  Here the heap holds
    them by address, a descriptor is the list of the addresses of its
    entries, and [delegate] allocates and assigns as the source does. *)

(** [remembered[k]] and [k in remembered] for the object at address
    [remembered]. *)
Definition heap_get (h : list entry) (remembered : nat) (k : string) : value :=
  obj_get k (default [] (h !! remembered)).

Definition heap_has (h : list entry) (remembered : nat) (k : string) : bool :=
  obj_has k (default [] (h !! remembered)).

(** [newRemembered[k] = v] *)
Definition heap_set (newRemembered : nat) (k : string) (v : value) (h : list entry)
  : list entry :=
  alter (obj_set k v) newRemembered h.

(** The [map] callback: the object literal is allocated, then the loop
    assigns to it what it reads from [remembered]. *)
Definition delegate_map (fields : list field_mapping) (remembered : nat)
    (h : list entry) : nat * list entry :=
  let newRemembered := length h in
  (newRemembered,
   foldl (λ h' field,
            heap_set newRemembered (target field)
                     (heap_get h' remembered (source field)) h')
         (h ++ [[(remember_key, heap_get h remembered remember_key)]])
         fields).

(** [kept.map(callback)] *)
Fixpoint delegate_map_all (fields : list field_mapping) (kept : list nat)
    (h : list entry) : list nat * list entry :=
  match kept with
  | [] => ([], h)
  | remembered :: rest =>
      let r1 := delegate_map fields remembered h in
      let r2 := delegate_map_all fields rest r1.2 in
      (r1.1 :: r2.1, r2.2)
  end.

(** [delegate(rememberedArg, fields)]: the addresses of the new entries and
    the heap after the call. *)
Definition delegate_on_heap (rememberedArg : list nat) (fields : list field_mapping)
    (h : list entry) : list nat * list entry :=
  delegate_map_all fields
    (List.filter (λ remembered,
                    existsb (λ field, heap_has h remembered (source field)) fields)
                 rememberedArg)
    h.

(** ** Application programs

    What application code can do with the library, one call at a time.  A
    thrown error ends the call, not the program: the next call runs in the
    world the failed one left behind. *)

(** The three binding methods of [Component]. *)
Inductive binding : Type :=
  | BInnerText
  | BAttribute (attributeName : string)
  | BCSSStyle (style : string).

Definition make_updater (b : binding) (this : nat) (fieldName : string)
    (element : nat) : updater :=
  match b with
  | BInnerText => UInnerText this fieldName element
  | BAttribute attributeName => UAttribute this attributeName fieldName element
  | BCSSStyle style => UCSSStyle this style fieldName element
  end.

Definition bind_field (b : binding) (this : nat) (fieldName : string)
    (element : option nat) : M unit :=
  match b with
  | BInnerText => setInnerText this fieldName element
  | BAttribute attributeName => setAttribute this attributeName fieldName element
  | BCSSStyle style => setCSSStyle this style fieldName element
  end.

Inductive op : Type :=
  | ORemember (data : target_obj)
  | ONew (ds : gmap string datasource) (rootTag : string) (rem : value)
  | OBind (b : binding) (this : nat) (fieldName : string) (element : option nat)
  | OSetUpdater (this : nat) (fieldName : string) (u : updater)
  | ORead (s : nat) (p : string)
  | OWrite (s : nat) (p : string) (newValue : value)
  | ORegister (s : nat) (c : nat) (rem : value)
  | OForget (s : nat) (c : nat)
  | ODestroy (c : nat).

Definition discard {A} (m : M A) : M unit := m ;;; ret tt.

Definition step (o : op) : M unit :=
  match o with
  | ORemember data => discard (remember data)
  | ONew ds rootTag rem => discard (new_Component ds rootTag rem)
  | OBind b this fieldName element => bind_field b this fieldName element
  | OSetUpdater this fieldName u => setUpdater this fieldName u
  | ORead s p => discard (store_get s p)
  | OWrite s p newValue => discard (store_set s p newValue)
  | ORegister s c rem => get_component c ;;; rememberSymbol s c rem
  | OForget s c => get_component c ;;; forgetSymbol s c
  | ODestroy c => destroy c
  end.

Fixpoint run_ops (ops : list op) (w : world) : world * list event :=
  match ops with
  | [] => (w, [])
  | o :: rest =>
      let r := step o w in
      let r' := run_ops rest (final r) in
      (r'.1, events r ++ r'.2)
  end.

(** The worlds a program can reach from the empty page. *)
Definition reachable (w : world) : Prop :=
  ∃ ops, (run_ops ops empty_world).1 = w.

(** [o] gives component [c] an updater. *)
Definition op_binds (c : nat) (o : op) : Prop :=
  match o with
  | OBind _ this _ _ | OSetUpdater this _ _ => this = c
  | _ => False
  end.

(** [o] hands component [c] to a store. *)
Definition op_registers (c : nat) (o : op) : Prop :=
  match o with
  | ORegister _ c' _ => c' = c
  | _ => False
  end.

(** The tail of [delegate_entry]: the assignments of [fields] applied to the
    object built so far. *)
Definition delegate_assign (r : entry) (fields : list field_mapping) (acc : entry)
  : entry :=
  foldl (λ newRemembered field,
           obj_set (target field) (obj_get (source field) r) newRemembered)
        acc fields.

(** ** Scenarios *)

Definition plain (props : list (string * value)) : target_obj :=
  {| tprops := (λ kv, (kv.1, Property kv.2 true)) <$> props; extensible := true |}.

(** [Object.freeze({...})] *)
Definition frozen (props : list (string * value)) : target_obj :=
  {| tprops := (λ kv, (kv.1, Property kv.2 false)) <$> props; extensible := false |}.

(** The data source [() => store.p]. *)
Definition read_store (s : nat) (p : string) : datasource :=
  λ h,
    match h !! s with
    | Some st => Ok (Reflect_get (initialData st) p)
    | None => Ok VUndefined
    end.

(** The descriptor [[{ '_#remember': store, label: ['value'] }]] for store 0. *)
Definition label_entry : entry :=
  [(remember_key, VStore 0); ("label", VArray [VStr "value"])].

(** Scenario A of the specification: [store = remember({value: 0})]; a
    component binds its field ["label"] to [["value"]] and shows it as
    text.  The write [store.value = 5] is then run in [world_A]. *)
Definition program_A : list op :=
  [ ORemember (plain [("value", VNum 0)]);
    ONew {["label" := read_store 0 "value"]} "span" (descriptor [label_entry]);
    OBind BInnerText 0 "label" None ].

Definition world_A : world := (run_ops program_A empty_world).1.

(** The same page over a frozen record: every write to it fails. *)
Definition program_frozen : list op :=
  [ ORemember (frozen [("value", VNum 0)]);
    ONew {["label" := read_store 0 "value"]} "span" (descriptor [label_entry]);
    OBind BInnerText 0 "label" None ].

Definition world_frozen : world := (run_ops program_frozen empty_world).1.

(** The same, after the application has handed the store the one entry
    object of the component instead of the list of entries: the shape the
    [set] trap enumerates field by field. *)
Definition program_entry : list op :=
  [ ORemember (frozen [("value", VNum 0)]);
    ONew {["label" := read_store 0 "value"]} "span" (descriptor [label_entry]);
    ORegister 0 0 (VObject label_entry);
    OBind BInnerText 0 "label" None ].

Definition world_entry : world := (run_ops program_entry empty_world).1.

(** A component whose descriptor comes out of [delegate] with a mapping whose
    source field the kept entry lacks, and a component with a dependency but
    no updater. *)
Definition delegated : list entry :=
  delegate [[(remember_key, VStore 0); ("name", VArray [VStr "value"])]]
           [Mapping "name" "text"; Mapping "age" "years"].

Definition delegated_entry : entry :=
  [(remember_key, VStore 0); ("text", VArray [VStr "value"]); ("years", VUndefined)].

Definition program_delegated : list op :=
  [ ORemember (plain [("value", VNum 0)]);
    ONew ∅ "span" (descriptor delegated) ].

Definition world_delegated : world := (run_ops program_delegated empty_world).1.

Definition program_no_updater : list op :=
  [ ORemember (plain [("value", VNum 0)]);
    ONew ∅ "span" (descriptor [label_entry]) ].

Definition world_no_updater : world := (run_ops program_no_updater empty_world).1.

(** Two mappings onto one target name. *)
Definition shared_target_descriptor : list entry :=
  [[(remember_key, VStore 0); ("a", VArray [VStr "p"]); ("b", VArray [VStr "q"])]].

Definition shared_target_mappings : list field_mapping :=
  [Mapping "a" "x"; Mapping "b" "x"].

(** ** Specifications of computations

    [hoare P m Q X E]: from a world satisfying [P], the computation [m] emits
    only events satisfying [E]; when it returns [a] the world satisfies
    [Q a], and when it throws the world satisfies [X]. *)
Definition hoare {A} (P : world → Prop) (m : M A) (Q : A → world → Prop)
    (X : world → Prop) (E : event → Prop) : Prop :=
  ∀ w, P w →
    Forall E (events (m w)) ∧
    match outcome (m w) with
    | Ok a => Q a (final (m w))
    | Throw _ => X (final (m w))
    end.

(** [m] keeps the invariant [I], whether it returns or throws. *)
Definition keeps {A} (I : world → Prop) (E : event → Prop) (m : M A) : Prop :=
  hoare I m (λ _, I) I E.

(** The dependency list the [set] trap finds under field [f] of the
    registered argument [d] contains [p]. *)
Definition depends_on (h : list store) (d : value) (f p : string) : Prop :=
  ∃ deps, get_prop h d f = Ok deps ∧ opt_includes deps p = Ok true.


(** Every store holds at most one entry per component. *)
Definition registry_unique (w : world) : Prop :=
  ∀ s st, stores w !! s = Some st → NoDup (subscribers st).*1.

(** Store [s] exists and holds no entry for component [c]. *)
Definition unregistered (c s : nat) (w : world) : Prop :=
  ∃ st, stores w !! s = Some st ∧ c ∉ (subscribers st).*1.

(** Component [c] exists, and store [s] exists and holds no entry for it. *)
Definition deregistered (c s : nat) (w : world) : Prop :=
  unregistered c s w ∧ is_Some (components w !! c).

(** Component [c] exists and holds no updater. *)
Definition no_updaters (c : nat) (w : world) : Prop :=
  ∃ comp, components w !! c = Some comp ∧ updaters comp = ∅.

(** [comp] after [comp.updaters.set(f, u)]. *)
Definition with_updater (comp : component) (f : string) (u : updater) : component :=
  {| dataSources := dataSources comp;
     updaters := <[f := u]> (updaters comp);
     root := root comp;
     remembered := remembered comp |}.

(** A failed write the way the specification words it: the failure comes
    back as from a plain write (the boolean [false]) and nothing else
    happens -- no notification pass, so no event and no change of the world. *)
Definition failed_write_is_silent (w : world) (s : nat) (p : string) (v : value)
  : Prop :=
  ∀ st, stores w !! s = Some st → (Reflect_set (initialData st) p v).2 = false →
        store_set s p v w = (Ok false, w, []).

(** The render-surface call each binding makes for the value [data] of its
    field: the table of the built-in updater factories. *)
Definition expected_render (b : binding) (element : nat) (data : value) : event :=
  match b with
  | BInnerText => ESetInnerText element data
  | BAttribute attributeName =>
      if nullish data then ERemoveAttribute element attributeName
      else ESetAttribute element attributeName data
  | BCSSStyle style =>
      if nullish data then ESetStyle element style (VStr "")
      else ESetStyle element style data
  end.

(** Delegation the way the specification words it. *)

(** Entry [r] declares at least one of the source fields of [fields]. *)
Definition declares_some (fields : list field_mapping) (r : entry) : Prop :=
  Exists (λ field, source field ∈ r.*1) fields.

#[global] Instance declares_some_dec fields r : Decision (declares_some fields r).
Proof. unfold declares_some. apply _. Defined.

(** [new] is the delegated image of [r]: same store, under every target
    name what [r] holds under the matching source name, and no own property
    besides these. *)
Definition delegated_image (fields : list field_mapping) (r new : entry) : Prop :=
  assoc_get remember_key new = Some (obj_get remember_key r) ∧
  (∀ field, field ∈ fields →
            assoc_get (target field) new = Some (obj_get (source field) r)) ∧
  new.*1 ≡ₚ remember_key :: (target <$> fields).

(** Some source name of [fields] is found in entry [r] by the [in] operator:
    as an own field, or as a name that [r] inherits. *)
Definition finds_some (fields : list field_mapping) (r : entry) : Prop :=
  Exists (λ field, source field ∈ r.*1 ∨ is_Some (inherited (source field))) fields.

#[global] Instance finds_some_dec fields r : Decision (finds_some fields r).
Proof. unfold finds_some. apply _. Defined.

(** The updater [u] can run in [w]: the component a built-in updater reads
    its data source from exists, and the call of what it finds there
    returns. *)
Definition updater_live (w : world) (u : updater) : Prop :=
  outcome (run_updater u w) = Ok tt.

(** Every subscriber in [subs] can be notified of a write to [p] in world
    [w]: the scan of its registered argument completes, the subscribed
    component exists, and each of its updaters can run. *)
Definition pass_ready (w : world) (p : string) (subs : list (nat * value)) : Prop :=
  ∀ c d, (c, d) ∈ subs →
    (∃ fs, fields_to_update (stores w) d p = Ok fs) ∧
    ∃ comp, components w !! c = Some comp ∧
            ∀ f u, updaters comp !! f = Some u → updater_live w u.

(** Some entry of [es] holds store [s] under ['_#remember']. *)
Definition references (es : list entry) (s : nat) : bool :=
  existsb (λ e, match obj_get remember_key e with
                | VStore s' => bool_decide (s' = s)
                | _ => false
                end) es.

(** Entry [e] names a store that exists in [w]. *)
Definition names_store (w : world) (e : entry) : Prop :=
  ∃ s, obj_get remember_key e = VStore s ∧ s < length (stores w).

(** The stores of [w] after [g] has been applied to the registry of each
    store that [es] references. *)
Definition update_referenced (g : list (nat * value) → list (nat * value))
    (es : list entry) (w : world) : list store :=
  imap (λ s st, if references es s
                then Store (initialData st) (g (subscribers st)) else st)
       (stores w).

(** What the constructor stores in [this]. *)
Definition fresh_component (ds : gmap string datasource) (w : world)
    (rem : value) : component :=
  {| dataSources := ds; updaters := ∅; root := next_element w; remembered := rem |}.

(** Every key of every registry is a component that exists. *)
Definition registry_live (w : world) : Prop :=
  ∀ s st c, stores w !! s = Some st → c ∈ (subscribers st).*1 →
            c < length (components w).

(** [comp] after [destroy()]: only the updater map has changed. *)
Definition destroyed (comp : component) : component :=
  {| dataSources := dataSources comp;
     updaters := ∅;
     root := root comp;
     remembered := remembered comp |}.

(** Component [c] exists and has the data sources, root and descriptor of
    [comp]. *)
Definition same_fixed_fields (c : nat) (comp : component) (w : world) : Prop :=
  ∃ comp', components w !! c = Some comp' ∧
           dataSources comp' = dataSources comp ∧
           root comp' = root comp ∧
           remembered comp' = remembered comp.



(** * Properties *)

(** ** Insertion-ordered tables *)

Section assoc.
Context {K V : Type} `{EqDecision K}.
Implicit Types (k : K) (v : V) (m : list (K * V)).

Lemma assoc_get_set_eq k v m : assoc_get k (assoc_set k v m) = Some v.
Proof.
  induction m as [|[k' v'] m IH]; simpl.
  - by rewrite decide_True.
  - destruct (decide (k = k')) as [->|Hne]; simpl.
    + by rewrite decide_True.
    + by rewrite decide_False.
Qed.

Lemma assoc_get_set_ne k k' v m :
  k ≠ k' → assoc_get k' (assoc_set k v m) = assoc_get k' m.
Proof.
  intros Hne. induction m as [|[k0 v0] m IH]; simpl.
  - by rewrite decide_False.
  - destruct (decide (k = k0)) as [->|Hk]; simpl.
    + by rewrite !decide_False.
    + destruct (decide (k' = k0)); [done|apply IH].
Qed.

Lemma assoc_get_Some_elem k v m : assoc_get k m = Some v → (k, v) ∈ m.
Proof.
  induction m as [|[k' v'] m IH]; simpl; [done|].
  destruct (decide (k = k')) as [->|Hne].
  - intros [= ->]. left.
  - intros Hget. right. by apply IH.
Qed.

Lemma assoc_get_None k m : assoc_get k m = None ↔ k ∉ m.*1.
Proof.
  induction m as [|[k' v'] m IH]; simpl.
  - split; [intros _; apply not_elem_of_nil|done].
  - rewrite not_elem_of_cons. destruct (decide (k = k')) as [->|Hne].
    + split; [done|intros [? _]; done].
    + rewrite IH. tauto.
Qed.

Lemma assoc_get_elem_NoDup k v m :
  NoDup m.*1 → (k, v) ∈ m → assoc_get k m = Some v.
Proof.
  induction m as [|[k' v'] m IH]; simpl.
  - intros _ Hin. by apply elem_of_nil in Hin.
  - rewrite NoDup_cons. intros [Hnotin Hnd] Hin.
    apply elem_of_cons in Hin as [[= -> ->]|Hin].
    + by rewrite decide_True.
    + destruct (decide (k = k')) as [->|Hne]; [|by apply IH].
      exfalso. apply Hnotin. apply list_elem_of_fmap. by exists (k', v).
Qed.

Lemma assoc_set_keys k v m :
  (assoc_set k v m).*1 = if decide (k ∈ m.*1) then m.*1 else m.*1 ++ [k].
Proof.
  induction m as [|[k' v'] m IH].
  - destruct (decide (k ∈ ([] : list (K * V)).*1)) as [Hin|Hin]; [|done].
    by apply elem_of_nil in Hin.
  - cbn [assoc_set]. destruct (decide (k = k')) as [->|Hne].
    + rewrite !fmap_cons. cbn [fst].
      destruct (decide (k' ∈ k' :: m.*1)) as [Hin|Hin]; [done|].
      exfalso. apply Hin. left.
    + rewrite !fmap_cons, IH. cbn [fst].
      destruct (decide (k ∈ m.*1)) as [Hin|Hnotin].
      * rewrite decide_True; [done|by right].
      * rewrite decide_False; [done|].
        rewrite not_elem_of_cons. done.
Qed.

Lemma assoc_set_NoDup k v m : NoDup m.*1 → NoDup (assoc_set k v m).*1.
Proof.
  intros Hnd. rewrite assoc_set_keys. case_decide; [done|].
  apply NoDup_app. split_and!; [done| |apply NoDup_singleton].
  intros x Hx Hx'. apply list_elem_of_singleton in Hx' as ->. done.
Qed.

Lemma assoc_delete_keys k m : (assoc_delete k m).*1 = filter (λ k', k' ≠ k) m.*1.
Proof.
  unfold assoc_delete. induction m as [|[k' v'] m IH]; [done|].
  rewrite fmap_cons, !filter_cons. cbn [fst].
  destruct (decide (k' ≠ k)); [rewrite fmap_cons; f_equal|]; apply IH.
Qed.

Lemma assoc_delete_not_elem k m : k ∉ (assoc_delete k m).*1.
Proof.
  rewrite assoc_delete_keys. intros Hin.
  apply list_elem_of_filter in Hin as [Hne _]. done.
Qed.

Lemma assoc_delete_NoDup k m : NoDup m.*1 → NoDup (assoc_delete k m).*1.
Proof. intros Hnd. rewrite assoc_delete_keys. by apply NoDup_filter. Qed.

Lemma assoc_delete_absent k m : k ∉ m.*1 → assoc_delete k m = m.
Proof.
  unfold assoc_delete. induction m as [|[k' v'] m IH]; [done|].
  rewrite fmap_cons, not_elem_of_cons. intros [Hne Hnotin].
  rewrite filter_cons. cbn [fst]. rewrite decide_True; [|done].
  by rewrite IH.
Qed.

Lemma assoc_delete_subseteq k m : assoc_delete k m ⊆ m.
Proof. intros x Hx. by apply list_elem_of_filter in Hx as [_ ?]. Qed.

Lemma entries_for_absent k m : k ∉ m.*1 → entries_for k m = [].
Proof.
  unfold entries_for. induction m as [|[k' v'] m IH]; [done|].
  rewrite fmap_cons, not_elem_of_cons. intros [Hne Hnotin].
  rewrite filter_cons. cbn [fst]. rewrite decide_False; [|done]. by apply IH.
Qed.

Lemma entries_for_set k v m :
  NoDup m.*1 → entries_for k (assoc_set k v m) = [(k, v)].
Proof.
  unfold entries_for. induction m as [|[k' v'] m IH]; cbn [assoc_set].
  - intros _. rewrite filter_cons. cbn [fst]. by rewrite decide_True.
  - rewrite fmap_cons, NoDup_cons. cbn [fst]. intros [Hnotin Hnd].
    destruct (decide (k = k')) as [->|Hne].
    + rewrite filter_cons. cbn [fst]. rewrite decide_True; [|done].
      f_equal. by apply entries_for_absent.
    + rewrite filter_cons. cbn [fst]. rewrite decide_False; [|done]. by apply IH.
Qed.
End assoc.

(** ** Property creation order *)

Section obj.
Context {V : Type}.
Implicit Types (k : string) (v : V) (m : list (string * V)).

Lemma enumerated_before_irrefl k : enumerated_before k k = false.
Proof.
  unfold enumerated_before. destruct (array_index k); [|done].
  apply bool_decide_eq_false. lia.
Qed.

Lemma obj_insert_get_eq k v m :
  assoc_get k m = None → assoc_get k (obj_insert k v m) = Some v.
Proof.
  induction m as [|[k' v'] m IH]; simpl; intros Hget.
  - by rewrite decide_True.
  - destruct (decide (k = k')) as [->|Hne]; [done|].
    destruct (enumerated_before k k'); simpl.
    + by rewrite decide_True.
    + rewrite decide_False by done. by apply IH.
Qed.

Lemma obj_insert_get_ne k k' v m :
  k ≠ k' → assoc_get k' (obj_insert k v m) = assoc_get k' m.
Proof.
  intros Hne. induction m as [|[k0 v0] m IH]; simpl.
  - by rewrite decide_False.
  - destruct (enumerated_before k k0); simpl.
    + by rewrite decide_False by done.
    + by rewrite IH.
Qed.

Lemma obj_insert_keys k v m : (obj_insert k v m).*1 ≡ₚ k :: m.*1.
Proof.
  induction m as [|[k' v'] m IH]; cbn [obj_insert]; [done|].
  destruct (enumerated_before k k'); [done|].
  rewrite !fmap_cons, IH. cbn [fst]. apply Permutation_swap.
Qed.


Lemma obj_insert_plain k v m : array_index k = None → obj_insert k v m = m ++ [(k, v)].
Proof.
  intros Hk. induction m as [|[k' v'] m IH]; simpl; [done|].
  unfold enumerated_before. rewrite Hk. by rewrite IH.
Qed.

Lemma obj_set_get_eq k v m : assoc_get k (obj_set k v m) = Some v.
Proof.
  unfold obj_set. destruct (assoc_get k m) eqn:Hget.
  - apply assoc_get_set_eq.
  - by apply obj_insert_get_eq.
Qed.

Lemma obj_set_get_ne k k' v m :
  k ≠ k' → assoc_get k' (obj_set k v m) = assoc_get k' m.
Proof.
  intros Hne. unfold obj_set. destruct (assoc_get k m).
  - by apply assoc_get_set_ne.
  - by apply obj_insert_get_ne.
Qed.

Lemma obj_set_keys_new k v m : k ∉ m.*1 → (obj_set k v m).*1 ≡ₚ k :: m.*1.
Proof.
  intros Hk. unfold obj_set. apply assoc_get_None in Hk. rewrite Hk.
  apply obj_insert_keys.
Qed.



Lemma obj_set_plain k v m : array_index k = None → obj_set k v m = assoc_set k v m.
Proof.
  intros Hk. unfold obj_set. destruct (assoc_get k m) eqn:Hget; [done|].
  rewrite obj_insert_plain by done. clear Hk.
  induction m as [|[k' v'] m IH]; simpl in *; [done|].
  destruct (decide (k = k')); [done|]. by rewrite IH.
Qed.


End obj.

(** ** Rules for computations *)

Lemma run_bind {A B} (m : M A) (k : A → M B) w :
  bind m k w =
  match outcome (m w) with
  | Ok a => (outcome (k a (final (m w))), final (k a (final (m w))),
             events (m w) ++ events (k a (final (m w))))
  | Throw e => (Throw e, final (m w), events (m w))
  end.
Proof.
  unfold bind, outcome, final, events.
  destruct (m w) as [[[a|e] w1] e1]; simpl; [|done].
  by destruct (k a w1) as [[r w2] e2].
Qed.

Lemma hoare_ret {A} (P : world → Prop) (a : A) (Q : A → world → Prop) X E :
  (∀ w, P w → Q a w) → hoare P (ret a) Q X E.
Proof. intros HPQ w HP. split; [apply Forall_nil_2|by apply HPQ]. Qed.

Lemma hoare_throw {A} (P : world → Prop) err (Q : A → world → Prop)
    (X : world → Prop) E :
  (∀ w, P w → X w) → hoare P (throw err) Q X E.
Proof. intros HPX w HP. split; [apply Forall_nil_2|by apply HPX]. Qed.

Lemma hoare_lift {A} (P : world → Prop) (r : result A) (Q : A → world → Prop)
    (X : world → Prop) E :
  (∀ a w, r = Ok a → P w → Q a w) → (∀ w, P w → X w) → hoare P (lift r) Q X E.
Proof.
  intros HQ HX w HP. split; [apply Forall_nil_2|].
  unfold lift, outcome, final; simpl. destruct r; [by apply HQ|by apply HX].
Qed.

Lemma hoare_emit (P : world → Prop) e (Q : unit → world → Prop) X (E : event → Prop) :
  E e → (∀ w, P w → Q tt w) → hoare P (emit e) Q X E.
Proof.
  intros He HPQ w HP. split; [by apply Forall_singleton|by apply HPQ].
Qed.

Lemma hoare_get_world (P : world → Prop) (Q : world → world → Prop) X E :
  (∀ w, P w → Q w w) → hoare P get_world Q X E.
Proof. intros HPQ w HP. split; [apply Forall_nil_2|by apply HPQ]. Qed.

Lemma hoare_bind {A B} (P : world → Prop) (m : M A) (Q : A → world → Prop)
    (k : A → M B) (R : B → world → Prop) X E :
  hoare P m Q X E → (∀ a, hoare (Q a) (k a) R X E) → hoare P (bind m k) R X E.
Proof.
  intros Hm Hk w HP. destruct (Hm w HP) as [Hev Hout].
  rewrite run_bind. destruct (outcome (m w)) as [a|err]; [|done].
  destruct (Hk a _ Hout) as [Hev' Hout'].
  split; [by apply Forall_app|done].
Qed.

Lemma hoare_weaken {A} (P P' : world → Prop) (m : M A) (Q Q' : A → world → Prop)
    (X X' : world → Prop) (E E' : event → Prop) :
  hoare P' m Q' X' E' →
  (∀ w, P w → P' w) → (∀ a w, Q' a w → Q a w) → (∀ w, X' w → X w) →
  (∀ e, E' e → E e) →
  hoare P m Q X E.
Proof.
  intros Hm HP HQ HX HE w Hw. destruct (Hm w (HP w Hw)) as [Hev Hout].
  split; [by eapply Forall_impl|].
  destruct (outcome (m w)); [by apply HQ|by apply HX].
Qed.

Lemma keeps_for_each {A} (I : world → Prop) E (xs : list A) (body : A → M unit) :
  (∀ x, x ∈ xs → keeps I E (body x)) → keeps I E (for_each xs body).
Proof.
  induction xs as [|x xs IH]; intros Hbody; simpl.
  - by apply hoare_ret.
  - eapply hoare_bind; [apply Hbody; left|].
    intros []. apply IH. intros y Hy. apply Hbody. by right.
Qed.

Lemma keeps_bind {A B} (I : world → Prop) E (m : M A) (k : A → M B) :
  keeps I E m → (∀ a, keeps I E (k a)) → keeps I E (bind m k).
Proof. intros Hm Hk. by eapply hoare_bind. Qed.

Lemma keeps_pure {A} (I : world → Prop) E (m : M A) :
  (∀ w, final (m w) = w ∧ events (m w) = []) → keeps I E m.
Proof.
  intros Hpure w HI. destruct (Hpure w) as [Hf He].
  split; [rewrite He; apply Forall_nil_2|].
  rewrite Hf. by destruct (outcome (m w)).
Qed.


(** ** Primitive computations *)

Lemma keeps_same_world {A} (I : world → Prop) (E : event → Prop) (m : M A) :
  (∀ w, final (m w) = w) → (∀ w, Forall E (events (m w))) → keeps I E m.
Proof.
  intros Hf He w HI. split; [apply He|].
  rewrite Hf. by destruct (outcome (m w)).
Qed.

Lemma keeps_ret {A} I E (a : A) : keeps I E (ret a).
Proof. by apply keeps_pure. Qed.

Lemma keeps_throw {A} I E err : keeps I E (throw (A := A) err).
Proof. by apply keeps_pure. Qed.

Lemma keeps_lift {A} I E (r : result A) : keeps I E (lift r).
Proof. by apply keeps_pure. Qed.

Lemma keeps_get_world I E : keeps I E get_world.
Proof. by apply keeps_pure. Qed.

Lemma keeps_get_store I E s : keeps I E (get_store s).
Proof.
  apply keeps_pure. intros w. unfold get_store, final, events.
  by destruct (stores w !! s).
Qed.

Lemma keeps_get_component I E c : keeps I E (get_component c).
Proof.
  apply keeps_pure. intros w. unfold get_component, final, events.
  by destruct (components w !! c).
Qed.

Lemma keeps_emit (I : world → Prop) (E : event → Prop) e : E e → keeps I E (emit e).
Proof. intros He. apply keeps_same_world; [done|]. intros w. by apply Forall_singleton. Qed.

Lemma keeps_update (I : world → Prop) (E : event → Prop) (f : world → world) :
  (∀ w, I w → I (f w)) → keeps I E (λ w, (Ok tt, f w, [])).
Proof. intros Hf w HI. split; [apply Forall_nil_2|by apply Hf]. Qed.

Lemma keeps_discard {A} I E (m : M A) : keeps I E m → keeps I E (discard m).
Proof. intros Hm. apply keeps_bind; [done|]. intros _. apply keeps_ret. Qed.

(** Updaters only talk to the render surface. *)
Lemma run_updater_final u w : final (run_updater u w) = w.
Proof.
  destruct u as [this f el|this a f el|this st f el|tag]; simpl; [| | |done].
  all: unfold bind, get_component, get_world, lift, final.
  all: destruct (components w !! this) as [comp|]; [|done]; simpl.
  all: destruct (lookup_data_source comp f) as [ds|]; [|done]; simpl.
  all: destruct (call_data_source ds (stores w)) as [data|err]; [|done]; simpl.
  all: try destruct (nullish _); done.
Qed.

Lemma run_updater_events u w : Forall (λ e, is_render e = true) (events (run_updater u w)).
Proof.
  destruct u as [this f el|this a f el|this st f el|tag]; simpl;
    [| | |apply Forall_nil_2].
  all: unfold bind, get_component, get_world, lift, events.
  all: destruct (components w !! this) as [comp|]; [|apply Forall_nil_2]; simpl.
  all: destruct (lookup_data_source comp f) as [ds|]; [|apply Forall_nil_2]; simpl.
  all: destruct (call_data_source ds (stores w)) as [data|err];
    [|apply Forall_nil_2]; simpl.
  all: try destruct (nullish _); simpl.
  all: by apply Forall_singleton.
Qed.

Lemma keeps_run_updater I (E : event → Prop) u :
  (∀ e, is_render e = true → E e) → keeps I E (run_updater u).
Proof.
  intros HE. apply keeps_same_world; [apply run_updater_final|].
  intros w. eapply Forall_impl; [apply run_updater_events|done].
Qed.


(** ** One registry entry per component *)

Section registry.
Let E : event → Prop := λ _, True.

Lemma registry_events (evs : list event) : Forall E evs.
Proof. by apply Forall_true. Qed.

Lemma registry_stores_only {A} (m : M A) :
  (∀ w, stores (final (m w)) = stores w) → keeps registry_unique E m.
Proof.
  intros Hst w HI. split; [apply registry_events|].
  assert (registry_unique (final (m w))) as HI'.
  { intros s st. rewrite Hst. apply HI. }
  by destruct (outcome (m w)).
Qed.

Lemma registry_set_target s t : keeps registry_unique E (set_target s t).
Proof.
  apply keeps_update. intros w HI s' st'. simpl.
  destruct (decide (s = s')) as [<-|Hne].
  - rewrite list_lookup_alter_eq. destruct (stores w !! s) as [st|] eqn:Hs; [|done].
    intros [= <-]. simpl. by eapply HI.
  - rewrite list_lookup_alter_ne; [|done]. apply HI.
Qed.

Lemma registry_set_subscribers s f :
  (∀ m : list (nat * value), NoDup m.*1 → NoDup (f m).*1) →
  keeps registry_unique E (set_subscribers s f).
Proof.
  intros Hf. apply keeps_update. intros w HI s' st'. simpl.
  destruct (decide (s = s')) as [<-|Hne].
  - rewrite list_lookup_alter_eq. destruct (stores w !! s) as [st|] eqn:Hs; [|done].
    intros [= <-]. simpl. apply Hf. by eapply HI.
  - rewrite list_lookup_alter_ne; [|done]. apply HI.
Qed.

Lemma registry_remember data : keeps registry_unique E (remember data).
Proof.
  intros w HI. split; [apply registry_events|].
  intros s st. simpl. rewrite lookup_app.
  destruct (stores w !! s) as [st0|] eqn:Hs.
  - intros [= <-]. by eapply HI.
  - destruct (s - length (stores w)) as [|n]; simpl; [|done].
    intros [= <-]. simpl. apply NoDup_nil_2.
Qed.

Lemma registry_register s c d : keeps registry_unique E (rememberSymbol s c d).
Proof.
  apply keeps_bind; [apply keeps_get_store|]. intros _.
  apply registry_set_subscribers. intros m. apply assoc_set_NoDup.
Qed.

Lemma registry_forget s c : keeps registry_unique E (forgetSymbol s c).
Proof.
  apply keeps_bind; [apply keeps_get_store|]. intros _.
  apply registry_set_subscribers. intros m. apply assoc_delete_NoDup.
Qed.

Lemma registry_entry_store r : keeps registry_unique E (entry_store r).
Proof.
  apply keeps_bind; [apply keeps_get_world|]. intros w.
  apply keeps_bind; [apply keeps_lift|]. intros x.
  destruct x; first [apply keeps_ret|apply keeps_throw].
Qed.

Lemma registry_call_updater c f u a : keeps registry_unique E (call_updater c f u a).
Proof.
  apply keeps_bind; [by apply keeps_emit|]. intros _. by apply keeps_run_updater.
Qed.

Lemma registry_notify p old subs :
  keeps registry_unique E (for_each subs (notify_subscriber p old)).
Proof.
  apply keeps_for_each. intros [c d] _.
  apply keeps_bind; [apply keeps_get_world|]. intros w.
  apply keeps_bind; [apply keeps_lift|]. intros fs.
  apply keeps_for_each. intros f _.
  apply keeps_bind; [apply keeps_get_component|]. intros comp.
  destruct (updaters comp !! f); [apply registry_call_updater|apply keeps_ret].
Qed.

Lemma registry_store_set s p v : keeps registry_unique E (store_set s p v).
Proof.
  apply keeps_bind; [apply keeps_get_store|]. intros st.
  apply keeps_bind; [apply registry_set_target|]. intros _.
  apply keeps_bind; [by apply registry_notify|]. intros _. apply keeps_ret.
Qed.

Lemma registry_new_Component ds tag rem :
  keeps registry_unique E (new_Component ds tag rem).
Proof.
  apply keeps_bind; [by apply registry_stores_only|]. intros el.
  apply keeps_bind; [by apply registry_stores_only|]. intros this.
  apply keeps_bind; [apply keeps_lift|]. intros items.
  apply keeps_bind; [|intros _; apply keeps_ret].
  apply keeps_for_each. intros r _.
  apply keeps_bind; [apply registry_entry_store|]. intros s.
  apply registry_register.
Qed.

Lemma registry_setUpdater this f u : keeps registry_unique E (setUpdater this f u).
Proof.
  apply keeps_bind; [apply registry_call_updater|]. intros _.
  apply keeps_bind; [apply keeps_get_component|]. intros _.
  by apply registry_stores_only.
Qed.

Lemma registry_bind_field b this f element :
  keeps registry_unique E (bind_field b this f element).
Proof.
  destruct b; simpl.
  all: apply keeps_bind; [|intros el; apply registry_setUpdater].
  all: apply keeps_bind; [apply keeps_get_component|]; intros comp; apply keeps_ret.
Qed.

Lemma registry_destroy this : keeps registry_unique E (destroy this).
Proof.
  apply keeps_bind; [apply keeps_get_component|]. intros comp.
  apply keeps_bind; [by apply keeps_emit|]. intros _.
  apply keeps_bind; [by apply registry_stores_only|]. intros _.
  apply keeps_bind; [by apply registry_stores_only|]. intros _.
  apply keeps_bind; [apply keeps_lift|]. intros items.
  apply keeps_for_each. intros r _.
  apply keeps_bind; [apply registry_entry_store|]. intros s.
  apply registry_forget.
Qed.

Lemma registry_step o : keeps registry_unique E (step o).
Proof.
  destruct o; simpl.
  - apply keeps_discard, registry_remember.
  - apply keeps_discard, registry_new_Component.
  - apply registry_bind_field.
  - apply registry_setUpdater.
  - apply keeps_discard. apply keeps_bind; [apply keeps_get_store|].
    intros st. apply keeps_ret.
  - apply keeps_discard, registry_store_set.
  - apply keeps_bind; [apply keeps_get_component|]. intros _. apply registry_register.
  - apply keeps_bind; [apply keeps_get_component|]. intros _. apply registry_forget.
  - apply registry_destroy.
Qed.
End registry.

Lemma keeps_final {A} I E (m : M A) w : keeps I E m → I w → I (final (m w)).
Proof.
  intros Hm HI. destruct (Hm w HI) as [_ Hout]. by destruct (outcome (m w)).
Qed.

Lemma keeps_events {A} I E (m : M A) w : keeps I E m → I w → Forall E (events (m w)).
Proof. intros Hm HI. by destruct (Hm w HI) as [Hev _]. Qed.

Lemma run_ops_keeps (I : world → Prop) (E : event → Prop) ops w :
  Forall (λ o, keeps I E (step o)) ops → I w →
  I (run_ops ops w).1 ∧ Forall E (run_ops ops w).2.
Proof.
  revert w. induction ops as [|o ops IH]; intros w Hops HI; simpl.
  - split; [done|apply Forall_nil_2].
  - apply Forall_cons in Hops as [Ho Hops].
    destruct (IH (final (step o w)) Hops (keeps_final _ _ _ _ Ho HI)) as [HI' Hev].
    split; [done|]. apply Forall_app. split; [|done]. by eapply keeps_events.
Qed.

Lemma reachable_registry_unique w : reachable w → registry_unique w.
Proof.
  intros [ops <-].
  apply (run_ops_keeps registry_unique (λ _, True)).
  - apply Forall_forall. intros o _. apply registry_step.
  - intros s st. simpl. by rewrite lookup_nil.
Qed.


(** ** A component without updaters is never invoked *)

Section quiet.
Variable c : nat.
Let E : event → Prop := λ e, is_invoke_of c e = false.
Let I : world → Prop := no_updaters c.

Lemma quiet_render e : is_render e = true → E e.
Proof. by destruct e. Qed.

Lemma quiet_components_only {A} (m : M A) :
  (∀ w, components (final (m w)) = components w) →
  (∀ w, Forall E (events (m w))) →
  keeps I E m.
Proof.
  intros Hc He w HI. split; [apply He|].
  assert (I (final (m w))) as HI'.
  { destruct HI as [comp [Hcomp Hu]]. exists comp. by rewrite Hc. }
  by destruct (outcome (m w)).
Qed.

Lemma quiet_set_target s t : keeps I E (set_target s t).
Proof. apply quiet_components_only; intros w; [done|apply Forall_nil_2]. Qed.

Lemma quiet_set_subscribers s f : keeps I E (set_subscribers s f).
Proof. apply quiet_components_only; intros w; [done|apply Forall_nil_2]. Qed.

Lemma quiet_remember data : keeps I E (remember data).
Proof.
  apply quiet_components_only; intros w; [done|]. by apply Forall_singleton.
Qed.

Lemma quiet_createElement tag : keeps I E (createElement tag).
Proof.
  apply quiet_components_only; intros w; [done|]. by apply Forall_singleton.
Qed.

Lemma quiet_alloc_component comp : keeps I E (alloc_component comp).
Proof.
  apply keeps_update. intros w [comp' [Hc Hu]]. exists comp'.
  split; [|done]. simpl. by apply lookup_app_l_Some.
Qed.

Lemma quiet_modify_component c' f :
  (c' = c → ∀ comp, updaters comp = ∅ → updaters (f comp) = ∅) →
  keeps I E (modify_component c' f).
Proof.
  intros Hf. apply keeps_update. intros w [comp [Hc Hu]].
  unfold I, no_updaters. simpl.
  destruct (decide (c' = c)) as [->|Hne].
  - exists (f comp). rewrite list_lookup_alter_eq, Hc. split; [done|by apply Hf].
  - exists comp. by rewrite list_lookup_alter_ne.
Qed.

Lemma quiet_register s c' d : keeps I E (rememberSymbol s c' d).
Proof.
  apply keeps_bind; [apply keeps_get_store|]. intros _. apply quiet_set_subscribers.
Qed.

Lemma quiet_forget s c' : keeps I E (forgetSymbol s c').
Proof.
  apply keeps_bind; [apply keeps_get_store|]. intros _. apply quiet_set_subscribers.
Qed.

Lemma quiet_entry_store r : keeps I E (entry_store r).
Proof.
  apply keeps_bind; [apply keeps_get_world|]. intros w.
  apply keeps_bind; [apply keeps_lift|]. intros x.
  destruct x; first [apply keeps_ret|apply keeps_throw].
Qed.

Lemma quiet_call_updater c' f u a : c' ≠ c → keeps I E (call_updater c' f u a).
Proof.
  intros Hne. apply keeps_bind.
  - apply keeps_emit. unfold E. simpl. by apply bool_decide_eq_false.
  - intros _. apply keeps_run_updater, quiet_render.
Qed.

Lemma quiet_invoke_field c' old f : keeps I E (invoke_field c' old f).
Proof.
  destruct (decide (c' = c)) as [->|Hne].
  - intros w [comp [Hc Hu]]. unfold invoke_field, bind, get_component.
    rewrite Hc. simpl. rewrite Hu, lookup_empty. simpl.
    split; [apply Forall_nil_2|]. by exists comp.
  - apply keeps_bind; [apply keeps_get_component|]. intros comp.
    destruct (updaters comp !! f); [by apply quiet_call_updater|apply keeps_ret].
Qed.

Lemma quiet_notify p old subs : keeps I E (for_each subs (notify_subscriber p old)).
Proof.
  apply keeps_for_each. intros [c' d] _.
  apply keeps_bind; [apply keeps_get_world|]. intros w.
  apply keeps_bind; [apply keeps_lift|]. intros fs.
  apply keeps_for_each. intros f _. apply quiet_invoke_field.
Qed.

Lemma quiet_store_set s p v : keeps I E (store_set s p v).
Proof.
  apply keeps_bind; [apply keeps_get_store|]. intros st.
  apply keeps_bind; [apply quiet_set_target|]. intros _.
  apply keeps_bind; [by apply quiet_notify|]. intros _. apply keeps_ret.
Qed.

Lemma quiet_new_Component ds tag rem : keeps I E (new_Component ds tag rem).
Proof.
  apply keeps_bind; [apply quiet_createElement|]. intros el.
  apply keeps_bind; [apply quiet_alloc_component|]. intros this.
  apply keeps_bind; [apply keeps_lift|]. intros items.
  apply keeps_bind; [|intros _; apply keeps_ret].
  apply keeps_for_each. intros r _.
  apply keeps_bind; [apply quiet_entry_store|]. intros s.
  apply quiet_register.
Qed.

Lemma quiet_setUpdater this f u : this ≠ c → keeps I E (setUpdater this f u).
Proof.
  intros Hne.
  apply keeps_bind; [by apply quiet_call_updater|]. intros _.
  apply keeps_bind; [apply keeps_get_component|]. intros _.
  by apply quiet_modify_component.
Qed.

Lemma quiet_bind_field b this f element :
  this ≠ c → keeps I E (bind_field b this f element).
Proof.
  intros Hne. destruct b; simpl.
  all: apply keeps_bind; [|intros el; by apply quiet_setUpdater].
  all: apply keeps_bind; [apply keeps_get_component|]; intros comp; apply keeps_ret.
Qed.

Lemma quiet_destroy this : keeps I E (destroy this).
Proof.
  apply keeps_bind; [apply keeps_get_component|]. intros comp.
  apply keeps_bind; [by apply keeps_emit|]. intros _.
  apply keeps_bind; [by apply quiet_modify_component|]. intros _.
  apply keeps_bind; [by apply quiet_modify_component|]. intros _.
  apply keeps_bind; [apply keeps_lift|]. intros items.
  apply keeps_for_each. intros r _.
  apply keeps_bind; [apply quiet_entry_store|]. intros s.
  apply quiet_forget.
Qed.

Lemma quiet_step o : ¬ op_binds c o → keeps I E (step o).
Proof.
  intros Huse. destruct o; simpl in *.
  - apply keeps_discard, quiet_remember.
  - apply keeps_discard, quiet_new_Component.
  - by apply quiet_bind_field.
  - by apply quiet_setUpdater.
  - apply keeps_discard. apply keeps_bind; [apply keeps_get_store|].
    intros st. apply keeps_ret.
  - apply keeps_discard, quiet_store_set.
  - apply keeps_bind; [apply keeps_get_component|]. intros _. apply quiet_register.
  - apply keeps_bind; [apply keeps_get_component|]. intros _. apply quiet_forget.
  - apply quiet_destroy.
Qed.
End quiet.


(** ** [destroy] *)

Lemma world_eta w :
  {| stores := stores w; components := components w; next_element := next_element w |} = w.
Proof. by destruct w. Qed.

Lemma list_alter_same {A} (f : A → A) (l : list A) i :
  (∀ x, l !! i = Some x → f x = x) → alter f i l = l.
Proof.
  revert i. induction l as [|a l IH]; intros i Hf; [done|].
  destruct i as [|i]; simpl.
  - f_equal. by apply Hf.
  - f_equal. apply IH. intros x Hx. by apply Hf.
Qed.

(** Deregistering a component the store does not hold changes nothing. *)
Lemma forgetSymbol_absent w s st c :
  stores w !! s = Some st → c ∉ (subscribers st).*1 →
  forgetSymbol s c w = (Ok tt, w, []).
Proof.
  intros Hs Hc. unfold forgetSymbol, bind, get_store, set_subscribers.
  rewrite Hs. simpl. rewrite list_alter_same.
  - by rewrite world_eta.
  - intros st' Hst'. rewrite Hs in Hst'. injection Hst' as <-.
    rewrite assoc_delete_absent; [|done]. by destruct st.
Qed.

Lemma forgetSymbol_missing_store w s c :
  stores w !! s = None →
  forgetSymbol s c w = (Throw (TypeError "not a remembered object"), w, []).
Proof. intros Hs. unfold forgetSymbol, bind, get_store. by rewrite Hs. Qed.

Lemma destroy_missing w c :
  components w !! c = None →
  destroy c w = (Throw (TypeError "not a component"), w, []).
Proof. intros Hc. unfold destroy, bind, get_component. by rewrite Hc. Qed.

(** Once [destroy] has cleared the updater map, the map stays empty to the
    end of the call, and no updater of the component is called. *)
Lemma destroy_quiet c :
  hoare (λ w, is_Some (components w !! c)) (destroy c)
        (λ _, no_updaters c) (no_updaters c) (λ e, is_invoke_of c e = false).
Proof.
  unfold destroy.
  eapply hoare_bind with (Q := λ _ w, is_Some (components w !! c)).
  { intros w Hw. unfold get_component, outcome, final, events.
    destruct Hw as [comp Hc]. rewrite Hc. simpl. split; [apply Forall_nil_2|by eexists]. }
  intros comp.
  eapply hoare_bind with (Q := λ _ w, is_Some (components w !! c)).
  { by apply hoare_emit. }
  intros _.
  eapply hoare_bind with (Q := λ _, no_updaters c).
  { intros w [comp' Hc]. split; [apply Forall_nil_2|].
    unfold outcome, final, modify_component, no_updaters. simpl.
    eexists. rewrite list_lookup_alter_eq, Hc. simpl. split; done. }
  intros _.
  apply keeps_bind; [by apply quiet_modify_component|]. intros _.
  apply keeps_bind; [apply keeps_lift|]. intros items.
  apply keeps_for_each. intros r _.
  apply keeps_bind; [apply quiet_entry_store|]. intros s.
  apply quiet_forget.
Qed.

Lemma destroy_Ok_exists c w : outcome (destroy c w) = Ok tt → is_Some (components w !! c).
Proof.
  intros Hout. destruct (components w !! c) as [comp|] eqn:Hc; [by eexists|].
  by rewrite destroy_missing in Hout.
Qed.

(** ** The notification pass *)

Lemma collect_fields_sound h d p keys fs :
  collect_fields h d p keys = Ok fs →
  ∀ f, f ∈ fs → f ∈ keys ∧ f ≠ remember_key ∧ depends_on h d f p.
Proof.
  revert fs. induction keys as [|k keys IH]; intros fs; simpl.
  - intros [= <-] f Hf. by apply elem_of_nil in Hf.
  - destruct (decide (k = remember_key)) as [->|Hk].
    { intros Hfs f Hf. destruct (IH fs Hfs f Hf) as (? & ? & ?).
      split_and!; [by right|done|done]. }
    destruct (get_prop h d k) as [deps|] eqn:Hget; [|done].
    destruct (opt_includes deps p) as [b|] eqn:Hinc; [|done].
    destruct (collect_fields h d p keys) as [fs'|]; [|done].
    intros [= <-] f Hf.
    assert (f ∈ fs' → f ∈ k :: keys ∧ f ≠ remember_key ∧ depends_on h d f p) as Hrest.
    { intros Hf'. destruct (IH fs' eq_refl f Hf') as (? & ? & ?).
      split_and!; [by right|done|done]. }
    destruct b; [|by apply Hrest].
    apply elem_of_cons in Hf as [->|Hf]; [|by apply Hrest].
    split_and!; [left|done|]. by exists deps.
Qed.

Lemma notify_subscriber_run p oldValue c d w :
  notify_subscriber p oldValue (c, d) w =
  match fields_to_update (stores w) d p with
  | Ok fs => for_each fs (invoke_field c oldValue) w
  | Throw e => (Throw e, w, [])
  end.
Proof.
  unfold notify_subscriber, bind, get_world, lift. simpl.
  destruct (fields_to_update (stores w) d p) as [fs|e]; [|done].
  by destruct (for_each fs (invoke_field c oldValue) w) as [[r w'] evs].
Qed.

Section notification.
Variables (p : string) (oldValue : value) (w0 : world).

(** What a pass over the registry [subs] may emit in world [w0]: calls to
    the render surface, and calls of updaters of subscribed components for
    fields that list [p], with the previous value as argument. *)
Let E (subs : list (nat * value)) : event → Prop :=
  λ e, is_render e = true ∨
       ∃ c d f, (c, d) ∈ subs ∧ e = EInvoke c f oldValue ∧ depends_on (stores w0) d f p.
Let I : world → Prop := λ w, w = w0.

Lemma notify_invoke_field subs c d f :
  (c, d) ∈ subs → depends_on (stores w0) d f p →
  keeps I (E subs) (invoke_field c oldValue f).
Proof.
  intros Hin Hdep.
  apply keeps_bind; [apply keeps_get_component|]. intros comp.
  destruct (updaters comp !! f) as [u|]; [|apply keeps_ret].
  apply keeps_bind.
  - apply keeps_emit. right. by exists c, d, f.
  - intros _. apply keeps_run_updater. intros e He. by left.
Qed.

Lemma notify_subscriber_keeps subs c d :
  (c, d) ∈ subs → keeps I (E subs) (notify_subscriber p oldValue (c, d)).
Proof.
  intros Hin w ->. rewrite notify_subscriber_run.
  destruct (fields_to_update (stores w0) d p) as [fs|err] eqn:Hfs.
  - apply (keeps_for_each I (E subs)); [|done].
    intros f Hf. apply notify_invoke_field with d; [done|].
    by destruct (collect_fields_sound _ _ _ _ _ Hfs f Hf) as (_ & _ & ?).
  - split; [apply Forall_nil_2|done].
Qed.

Lemma notify_pass_keeps subs :
  keeps I (E subs) (for_each subs (notify_subscriber p oldValue)).
Proof.
  apply keeps_for_each. intros [c d] Hin. by apply notify_subscriber_keeps.
Qed.
End notification.

(** What a write does: the record is updated, then the pass runs in the
    updated world, and the result of [Reflect.set] is returned. *)
Lemma store_set_run s p v w st :
  stores w !! s = Some st →
  store_set s p v w =
  (for_each (subscribers st) (notify_subscriber p (Reflect_get (initialData st) p)) ;;;
   ret (Reflect_set (initialData st) p v).2)
    (final (set_target s (Reflect_set (initialData st) p v).1 w)).
Proof.
  intros Hs. unfold store_set, bind, get_store. rewrite Hs.
  unfold final, set_target. simpl.
  by destruct (for_each _ _ _) as [[[?|?] ?] ?].
Qed.

Lemma notify_pass_final p oldValue subs w :
  final (for_each subs (notify_subscriber p oldValue) w) = w.
Proof.
  destruct (notify_pass_keeps p oldValue w subs w eq_refl) as [_ Hw].
  by destruct (outcome _).
Qed.

Lemma store_set_missing s p v w :
  stores w !! s = None →
  store_set s p v w = (Throw (TypeError "not a remembered object"), w, []).
Proof. intros Hs. unfold store_set, bind, get_store. by rewrite Hs. Qed.

Lemma store_set_final s p v w st :
  stores w !! s = Some st →
  final (store_set s p v w) = final (set_target s (Reflect_set (initialData st) p v).1 w).
Proof.
  intros Hs. rewrite (store_set_run _ _ _ _ _ Hs), run_bind.
  destruct (outcome _); unfold final at 1; simpl; apply notify_pass_final.
Qed.

Lemma store_set_events s p v w st :
  stores w !! s = Some st →
  events (store_set s p v w) =
  events (for_each (subscribers st) (notify_subscriber p (Reflect_get (initialData st) p))
            (final (set_target s (Reflect_set (initialData st) p v).1 w))).
Proof.
  intros Hs. rewrite (store_set_run _ _ _ _ _ Hs), run_bind.
  destruct (outcome _); unfold events at 1; simpl; [apply app_nil_r|done].
Qed.

(** Every updater call a write makes is for a subscribed component and a
    field whose list contains the written property, and passes the value the
    property held before. *)
Lemma store_set_invocations s p v w c f arg :
  EInvoke c f arg ∈ events (store_set s p v w) →
  ∃ st d, stores w !! s = Some st ∧ (c, d) ∈ subscribers st ∧
          depends_on (stores (final (store_set s p v w))) d f p ∧
          arg = Reflect_get (initialData st) p.
Proof.
  destruct (stores w !! s) as [st|] eqn:Hs.
  2:{ rewrite store_set_missing; [|done]. intros Hin. by apply elem_of_nil in Hin. }
  rewrite (store_set_events _ _ _ _ _ Hs), (store_set_final _ _ _ _ _ Hs).
  set (w1 := final (set_target s (Reflect_set (initialData st) p v).1 w)).
  set (oldValue := Reflect_get (initialData st) p).
  intros Hin.
  destruct (notify_pass_keeps p oldValue w1 (subscribers st) w1 eq_refl) as [Hev _].
  rewrite Forall_forall in Hev. destruct (Hev _ Hin) as [Hr|(c' & d & f' & Hd & Heq & Hdep)].
  - done.
  - injection Heq as -> -> ->. by exists st, d.
Qed.




(** ** Descriptors as the constructor registers them *)


Lemma array_entries_elem xs k x : (k, x) ∈ array_entries xs → x ∈ xs.
Proof.
  unfold array_entries. intros Hin.
  apply list_elem_of_lookup in Hin as [i Hi].
  rewrite list_lookup_imap in Hi.
  destruct (xs !! i) as [y|] eqn:Hy; [|done].
  injection Hi as _ <-. by eapply list_elem_of_lookup_2.
Qed.

(** Read through a list of entries, no name leads to a dependency list: an
    index leads to an entry object, which has no [includes] method. *)
Lemma descriptor_not_depends h es f p : ¬ depends_on h (descriptor es) f p.
Proof.
  intros [deps [Hget Hinc]]. unfold descriptor in Hget. simpl in Hget.
  injection Hget as <-. unfold array_get in Hinc.
  destruct (decide (f = "length")); [done|].
  destruct (assoc_get f (array_entries (VObject <$> es))) as [x|] eqn:Hx; [|done].
  apply assoc_get_Some_elem, array_entries_elem in Hx.
  apply list_elem_of_fmap in Hx as [e [-> _]]. done.
Qed.




(** ** The scenarios, run *)

(** C1 (the code departs from the claim).  In Scenario A the field ["label"]
    lists ["value"] and has an updater, and the write stores the new value;
    but the pass throws before any updater is called. *)
Theorem scenario_A_write_throws :
  let r := store_set 0 "value" (VNum 5) world_A in
  (∃ comp, components world_A !! 0 = Some comp ∧
           updaters comp !! "label" = Some (UInnerText 0 "label" 0) ∧
           remembered comp = descriptor [label_entry]) ∧
  array_includes [VStr "value"] "value" = true ∧
  read_store 0 "value" (stores world_A) = Ok (VNum 0) ∧
  read_store 0 "value" (stores (final r)) = Ok (VNum 5) ∧
  outcome r = Throw (TypeError "includes is not a function") ∧
  events r = [].
Proof.
  split_and!; try by vm_compute.
  eexists. split_and!; [by vm_compute|by vm_compute|by vm_compute].
Qed.

(** C10 (the code departs from the claim).  With a descriptor that
    [delegate] built around a missing source field, and with a dependency
    that has no updater, the write raises an error instead of skipping the
    field. *)
Theorem skipped_fields_write_throws :
  delegated = [[(remember_key, VStore 0); ("text", VArray [VStr "value"]);
                ("years", VUndefined)]] ∧
  outcome (store_set 0 "value" (VNum 5) world_delegated) =
    Throw (TypeError "includes is not a function") ∧
  (∃ comp, components world_no_updater !! 0 = Some comp ∧
           remembered comp = descriptor [label_entry] ∧
           updaters comp !! "label" = None) ∧
  outcome (store_set 0 "value" (VNum 5) world_no_updater) =
    Throw (TypeError "includes is not a function").
Proof.
  split_and!; try by vm_compute.
  eexists. split_and!; by vm_compute.
Qed.

(** The guards of the pass do skip such fields when the scan runs over one
    entry object: a field without a dependency list is not selected, and a
    selected field without an updater is passed over. *)
Lemma nullish_field_not_selected h d p f fs :
  fields_to_update h d p = Ok fs →
  (∃ x, get_prop h d f = Ok x ∧ nullish x = true) → f ∉ fs.
Proof.
  intros Hfs [x [Hget Hnull]] Hin.
  destruct (collect_fields_sound _ _ _ _ _ Hfs f Hin) as (_ & _ & deps & Hget' & Hinc).
  rewrite Hget in Hget'. injection Hget' as <-. by destruct x.
Qed.

Lemma invoke_field_no_updater c oldValue f w comp :
  components w !! c = Some comp → updaters comp !! f = None →
  invoke_field c oldValue f w = (Ok tt, w, []).
Proof.
  intros Hc Hu. unfold invoke_field, bind, get_component. rewrite Hc. simpl.
  by rewrite Hu.
Qed.

Example entry_object_scan h :
  fields_to_update h (VObject delegated_entry) "value" = Ok ["text"].
Proof. reflexivity. Qed.


(** ** Failed writes *)

Lemma Reflect_set_false t p v : (Reflect_set t p v).2 = false → (Reflect_set t p v).1 = t.
Proof.
  unfold Reflect_set. destruct (assoc_get p (tprops t)) as [pr|].
  - by destruct (writable pr).
  - by destruct (extensible t).
Qed.

Lemma set_target_same s w st :
  stores w !! s = Some st → set_target s (initialData st) w = (Ok tt, w, []).
Proof.
  intros Hs. unfold set_target. rewrite list_alter_same.
  - by rewrite world_eta.
  - intros st' Hst'. rewrite Hs in Hst'. injection Hst' as <-. by destruct st.
Qed.

(** C2, as the code has it.  A write that fails leaves the record as it
    was, and the notification pass runs all the same, with the value the
    property holds; when the pass returns, the store returns the [false] of
    the plain write. *)
Theorem failed_write_still_notifies s p v w st :
  stores w !! s = Some st →
  (Reflect_set (initialData st) p v).2 = false →
  store_set s p v w =
    (notify s p (Reflect_get (initialData st) p) ;;; ret false) w ∧
  final (store_set s p v w) = w.
Proof.
  intros Hs Hfail.
  assert (store_set s p v w =
          (notify s p (Reflect_get (initialData st) p) ;;; ret false) w) as Heq.
  { rewrite (store_set_run _ _ _ _ _ Hs), Hfail, (Reflect_set_false _ _ _ Hfail).
    rewrite (set_target_same _ _ _ Hs). unfold final. simpl.
    unfold notify, bind at 2 3, get_store. rewrite Hs. unfold bind.
    by destruct (for_each _ _ _) as [[[?|?] ?] ?]. }
  split; [done|].
  rewrite (store_set_final _ _ _ _ _ Hs), (Reflect_set_false _ _ _ Hfail).
  by rewrite (set_target_same _ _ _ Hs).
Qed.

Lemma failed_write_still_notifies_witness :
  store_set 0 "value" (VNum 5) world_entry =
    (notify 0 "value" (VNum 0) ;;; ret false) world_entry ∧
  final (store_set 0 "value" (VNum 5) world_entry) = world_entry.
Proof.
  apply (failed_write_still_notifies 0 "value" (VNum 5) world_entry
           {| initialData := frozen [("value", VNum 0)];
              subscribers := [(0, VObject label_entry)] |}).
  - reflexivity.
  - reflexivity.
Defined.

(** C2 as worded fails: over a frozen record, the write of Scenario A throws
    out of the notification pass instead of returning [false]; and when the
    component has handed the store a single entry, the failed write calls its
    updater. *)
Lemma failed_write_not_silent :
  ¬ failed_write_is_silent world_frozen 0 "value" (VNum 5) ∧
  ¬ failed_write_is_silent world_entry 0 "value" (VNum 5) ∧
  outcome (store_set 0 "value" (VNum 5) world_frozen) =
    Throw (TypeError "includes is not a function") ∧
  events (store_set 0 "value" (VNum 5) world_entry) =
    [EInvoke 0 "label" (VNum 0); ESetInnerText 0 (VNum 0)].
Proof.
  split_and!; [| |by vm_compute|by vm_compute].
  - intros Hsilent.
    specialize (Hsilent _ eq_refl eq_refl).
    apply (f_equal outcome) in Hsilent. vm_compute in Hsilent. discriminate.
  - intros Hsilent.
    specialize (Hsilent _ eq_refl eq_refl).
    apply (f_equal events) in Hsilent. vm_compute in Hsilent. discriminate.
Qed.


(** ** What [destroy] leaves behind *)

Lemma Object_assign_empty (tgt : gmap string datasource) : Object_assign tgt ∅ = tgt.
Proof. unfold Object_assign. apply (left_id_L ∅ (∪)). Qed.

Section data_sources.
Variables (c : nat) (ds : gmap string datasource).
Let E : event → Prop := λ _, True.
Let I : world → Prop :=
  λ w, ∃ comp, components w !! c = Some comp ∧ dataSources comp = ds.

Lemma sources_components_only {A} (m : M A) :
  (∀ w, components (final (m w)) = components w) → keeps I E m.
Proof.
  intros Hc w HI. split; [by apply Forall_true|].
  assert (I (final (m w))) as HI'.
  { destruct HI as [comp [Hcomp Hds]]. exists comp. by rewrite Hc. }
  by destruct (outcome (m w)).
Qed.

Lemma sources_modify_component c' f :
  (∀ comp, dataSources (f comp) = dataSources comp) →
  keeps I E (modify_component c' f).
Proof.
  intros Hf. apply keeps_update. intros w [comp [Hc Hds]].
  unfold I. simpl. destruct (decide (c' = c)) as [->|Hne].
  - exists (f comp). rewrite list_lookup_alter_eq, Hc. split; [done|].
    by rewrite Hf.
  - exists comp. by rewrite list_lookup_alter_ne.
Qed.

Lemma sources_forget s c' : keeps I E (forgetSymbol s c').
Proof.
  apply keeps_bind; [apply keeps_get_store|]. intros _.
  by apply sources_components_only.
Qed.

Lemma sources_entry_store r : keeps I E (entry_store r).
Proof.
  apply keeps_bind; [apply keeps_get_world|]. intros w.
  apply keeps_bind; [apply keeps_lift|]. intros x.
  destruct x; first [apply keeps_ret|apply keeps_throw].
Qed.

Lemma sources_destroy this : keeps I E (destroy this).
Proof.
  apply keeps_bind; [apply keeps_get_component|]. intros comp.
  apply keeps_bind; [by apply keeps_emit|]. intros _.
  apply keeps_bind; [by apply sources_modify_component|]. intros _.
  apply keeps_bind.
  { apply sources_modify_component. intros comp'. simpl. apply Object_assign_empty. }
  intros _.
  apply keeps_bind; [apply keeps_lift|]. intros items.
  apply keeps_for_each. intros r _.
  apply keeps_bind; [apply sources_entry_store|]. intros s.
  apply sources_forget.
Qed.
End data_sources.

(** [destroy] changes no data-source mapping, of the destroyed component or of
    any other. *)
Lemma destroy_keeps_dataSources this c w comp :
  components w !! c = Some comp →
  ∃ comp', components (final (destroy this w)) !! c = Some comp' ∧
           dataSources comp' = dataSources comp.
Proof.
  intros Hc. apply (keeps_final _ _ _ w (sources_destroy c (dataSources comp) this)).
  by exists comp.
Qed.

(** The root node is handed to the render surface for removal, first thing. *)
Lemma destroy_removes_root c w comp :
  components w !! c = Some comp →
  ∃ evs, events (destroy c w) = ERemove (root comp) :: evs.
Proof.
  intros Hc. unfold destroy. rewrite run_bind.
  unfold get_component at 1 2 3. rewrite Hc. cbn [outcome final events fst snd].
  rewrite run_bind. cbn [outcome final events emit fst snd app].
  unfold get_component. rewrite Hc. cbn [events final fst snd app]. by eexists.
Qed.

(** C3 (the code departs from the claim).  Destroying the component of
    Scenario A returns normally, removes the root node and empties the
    updater map; the data-source mapping still holds ["label"]. *)
Theorem destroy_leaves_data_sources :
  let r := destroy 0 world_A in
  outcome r = Ok tt ∧
  events r = [ERemove 0] ∧
  ∃ comp, components (final r) !! 0 = Some comp ∧
          updaters comp = ∅ ∧
          dataSources comp !! "label" ≠ None ∧
          (∀ h, (default (λ _, Ok VNull) (dataSources comp !! "label")) h =
                read_store 0 "value" h).
Proof.
  split_and!; [by vm_compute|by vm_compute|].
  destruct (destroy_keeps_dataSources 0 0 world_A
              {| dataSources := {["label" := read_store 0 "value"]};
                 updaters := {["label" := UInnerText 0 "label" 0]};
                 root := 0;
                 remembered := descriptor [label_entry] |})
    as [comp [Hc Hds]].
  { reflexivity. }
  exists comp. split; [done|]. simpl in Hds.
  split_and!.
  - destruct (destroy_quiet 0 world_A) as [_ Hq]; [by eexists|].
    simpl in Hq. destruct (outcome (destroy 0 world_A)).
    all: destruct Hq as [comp' [Hc' Hu]]; rewrite Hc in Hc'; by injection Hc' as <-.
  - rewrite Hds. by rewrite lookup_singleton_eq.
  - intros h. rewrite Hds. by rewrite lookup_singleton_eq.
Qed.


(** ** The built-in updaters *)

(** One run of a built-in updater: the world is untouched; when the lookup
    finds nothing, nothing happens; when the call of what it finds returns,
    there is exactly the render call of the binding for the value returned;
    when that call throws, the error goes up and nothing is rendered. *)
Lemma run_updater_builtin b this f el w comp :
  components w !! this = Some comp →
  run_updater (make_updater b this f el) w =
  match lookup_data_source comp f with
  | None => (Ok tt, w, [])
  | Some dataSource =>
      match call_data_source dataSource (stores w) with
      | Ok data => (Ok tt, w, [expected_render b el data])
      | Throw err => (Throw err, w, [])
      end
  end.
Proof.
  intros Hc. destruct b; simpl.
  all: unfold bind, get_component, get_world, lift; rewrite Hc; simpl.
  all: destruct (lookup_data_source comp f) as [ds|]; [|done]; simpl.
  all: destruct (call_data_source ds (stores w)) as [data|err]; [|done]; simpl.
  all: by destruct (nullish data).
Qed.

Lemma lookup_data_source_None comp f :
  lookup_data_source comp f = None ↔ dataSources comp !! f = None ∧ inherited f = None.
Proof.
  unfold lookup_data_source. destruct (dataSources comp !! f) as [ds|].
  - split; [done|]. by intros [? _].
  - rewrite fmap_None. split; [done|]. by intros [_ ?].
Qed.

(** C9, as the code has it.  A built-in updater (text, attribute or style)
    returns normally, makes no render-surface call and changes nothing
    exactly when the read [this.dataSources[fieldName]] finds nothing: the
    component has no data source of its own for the field, and the name of
    the field is not one that the data-source object inherits from
    [Object.prototype]. *)
Theorem updater_without_data_source b this f el w comp :
  components w !! this = Some comp →
  run_updater (make_updater b this f el) w = (Ok tt, w, []) ↔
  dataSources comp !! f = None ∧ inherited f = None.
Proof.
  intros Hc. rewrite (run_updater_builtin _ _ _ _ _ _ Hc), <- lookup_data_source_None.
  destruct (lookup_data_source comp f) as [ds|]; [|done].
  split; [|done].
  by destruct (call_data_source ds (stores w)).
Qed.

Lemma updater_without_data_source_witness :
  run_updater (make_updater (BAttribute "title") 0 "tooltip" 0) world_A
  = (Ok tt, world_A, []).
Proof.
  apply (updater_without_data_source (BAttribute "title") 0 "tooltip" 0 world_A
           {| dataSources := {["label" := read_store 0 "value"]};
              updaters := {["label" := UInnerText 0 "label" 0]};
              root := 0;
              remembered := descriptor [label_entry] |}).
  - reflexivity.
  - split; reflexivity.
Defined.

(** C9 as worded fails for a field whose name every object inherits: the
    component of Scenario A has no data source for ["toString"] or
    ["valueOf"], yet the text updater of the first renders what
    [Object.prototype.toString] returns, and that of the second throws. *)
Lemma inherited_name_not_silent :
  (∃ comp, components world_A !! 0 = Some comp ∧
           dataSources comp !! "toString" = None ∧
           dataSources comp !! "valueOf" = None) ∧
  run_updater (make_updater BInnerText 0 "toString" 0) world_A =
    (Ok tt, world_A, [ESetInnerText 0 (VStr "[object Undefined]")]) ∧
  run_updater (make_updater BInnerText 0 "valueOf" 0) world_A =
    (Throw (TypeError "Cannot convert undefined or null to object"), world_A, []).
Proof.
  split_and!; [|reflexivity|reflexivity].
  eexists. split_and!; reflexivity.
Qed.

Lemma bind_field_unfold b this f element w comp :
  components w !! this = Some comp →
  bind_field b this f element w =
  setUpdater this f (make_updater b this f (default (root comp) element)) w.
Proof.
  intros Hc. destruct b; simpl.
  all: unfold setInnerText, setAttribute, setCSSStyle, element_or_root.
  all: unfold bind at 1 2, get_component; rewrite Hc; simpl.
  all: by destruct (setUpdater _ _ _ _) as [[? ?] ?].
Qed.

(** [updater(); this.updaters.set(fieldName, updater);]: the call comes
    first, and the updater is stored only when the call returns. *)
Lemma setUpdater_run this f u w comp :
  components w !! this = Some comp →
  setUpdater this f u w =
  (outcome (run_updater u w),
   match outcome (run_updater u w) with
   | Ok _ =>
       {| stores := stores w;
          components := <[this := with_updater comp f u]> (components w);
          next_element := next_element w |}
   | Throw _ => w
   end,
   EInvoke this f VUndefined :: events (run_updater u w)).
Proof.
  intros Hc. unfold setUpdater, call_updater, updaters_set.
  unfold bind at 1 2. cbn [emit].
  pose proof (run_updater_final u w) as Hfinal. unfold final, outcome, events in *.
  destruct (run_updater u w) as [[[[]|err] w1] evs]; simpl in *; subst w1; [|done].
  unfold bind, get_component, modify_component. rewrite Hc. simpl.
  do 2 f_equal. f_equal.
  apply list_eq. intros i. destruct (decide (i = this)) as [->|Hne].
  - rewrite list_lookup_alter_eq, list_lookup_insert_eq, Hc; [done|].
    by eapply lookup_lt_Some.
  - by rewrite list_lookup_alter_ne, list_lookup_insert_ne.
  - apply app_nil_r.
Qed.

Lemma run_updater_no_invokes u w :
  filter (λ e, is_invoke e = true) (events (run_updater u w)) = [].
Proof.
  pose proof (run_updater_events u w) as Hev.
  induction (events (run_updater u w)) as [|e evs IH]; [done|].
  apply Forall_cons in Hev as [He Hev]. rewrite filter_cons, (IH Hev).
  by destruct e.
Qed.

(** C8, as the code has it.  Each binding method ([setInnerText],
    [setAttribute], [setCSSStyle]) calls the new updater exactly once, and
    that before anything else, and leaves the stores alone.  When the call
    returns, the method returns normally with the updater in the updater map
    under the field name (over whatever was there), and whatever store write
    follows comes after the call; with a data source of its own that returns,
    or with nothing to be found under the field's name, the call does return,
    and in the first case it makes the render call for the current value.
    When the call throws -- the data source throws, or the name of the field
    finds an inherited property that cannot be called that way -- the method
    throws the same error and the updater map is as before. *)
Theorem binding_applies_immediately b this f element w comp :
  components w !! this = Some comp →
  let u := make_updater b this f (default (root comp) element) in
  let r := bind_field b this f element w in
  events r = EInvoke this f VUndefined :: events (run_updater u w) ∧
  filter (λ e, is_invoke e = true) (events r) = [EInvoke this f VUndefined] ∧
  stores (final r) = stores w ∧
  outcome r = outcome (run_updater u w) ∧
  (outcome r = Ok tt →
     components (final r) !! this = Some (with_updater comp f u) ∧
     updaters (with_updater comp f u) !! f = Some u ∧
     ∀ s p v,
       events ((bind_field b this f element ;;; store_set s p v) w) =
       events r ++ events (store_set s p v (final r))) ∧
  (∀ err, outcome r = Throw err →
     final r = w ∧
     ∃ dataSource, lookup_data_source comp f = Some dataSource ∧
                   call_data_source dataSource (stores w) = Throw err) ∧
  (∀ dataSource data,
     dataSources comp !! f = Some dataSource → dataSource (stores w) = Ok data →
     outcome r = Ok tt ∧
     events r = [EInvoke this f VUndefined;
                 expected_render b (default (root comp) element) data]) ∧
  (dataSources comp !! f = None → inherited f = None →
     outcome r = Ok tt ∧ events r = [EInvoke this f VUndefined]).
Proof.
  intros Hc u r. subst r.
  rewrite (bind_field_unfold _ _ _ _ _ _ Hc). fold u.
  pose proof (setUpdater_run this f u w comp Hc) as Hrun.
  pose proof (run_updater_builtin b this f (default (root comp) element) w comp Hc)
    as Hu. fold u in Hu.
  split_and!.
  - by rewrite Hrun.
  - rewrite Hrun. unfold events at 1. cbn [snd].
    rewrite filter_cons. cbn [is_invoke]. rewrite decide_True by done.
    by rewrite run_updater_no_invokes.
  - rewrite Hrun. unfold final at 1. cbn [fst snd].
    by destruct (outcome (run_updater u w)).
  - by rewrite Hrun.
  - rewrite Hrun. unfold outcome at 1, final at 1. cbn [fst snd].
    intros Hok. rewrite Hok. split_and!.
    + cbn [components]. rewrite list_lookup_insert_eq; [done|].
      by eapply lookup_lt_Some.
    + simpl. apply lookup_insert_eq.
    + intros s p v. rewrite run_bind.
      rewrite (bind_field_unfold _ _ _ _ _ _ Hc). fold u. rewrite Hrun.
      unfold outcome at 1. cbn [fst snd]. by rewrite Hok.
  - intros err. rewrite Hrun. unfold outcome at 1, final at 1. cbn [fst snd].
    intros Herr. rewrite Herr. split; [done|].
    rewrite Hu in Herr. unfold outcome in Herr.
    destruct (lookup_data_source comp f) as [ds|]; [|done].
    exists ds. split; [done|].
    destruct (call_data_source ds (stores w)); [done|].
    simpl in Herr. by injection Herr as ->.
  - intros ds data Hds Hdata. rewrite Hrun, Hu.
    unfold lookup_data_source. rewrite Hds. cbn [call_data_source]. by rewrite Hdata.
  - intros Hds Hin. rewrite Hrun, Hu.
    by rewrite (proj2 (lookup_data_source_None comp f) (conj Hds Hin)).
Qed.

Lemma binding_applies_immediately_witness :
  events (bind_field BInnerText 0 "label" None world_A) =
    [EInvoke 0 "label" VUndefined; ESetInnerText 0 (VNum 0)].
Proof.
  pose proof (binding_applies_immediately BInnerText 0 "label" None world_A
                {| dataSources := {["label" := read_store 0 "value"]};
                   updaters := {["label" := UInnerText 0 "label" 0]};
                   root := 0;
                   remembered := descriptor [label_entry] |} eq_refl) as H.
  destruct H as (_ & _ & _ & _ & _ & _ & Hrender & _).
  apply (Hrender (read_store 0 "value") (VNum 0)); reflexivity.
Defined.

(** C8 as worded fails when the one call of the updater throws: binding the
    field ["valueOf"], for which the component of Scenario A has no data
    source, calls the updater once, throws, and puts nothing into the updater
    map. *)
Lemma binding_throws_before_insert :
  let r := bind_field BInnerText 0 "valueOf" None world_A in
  outcome r = Throw (TypeError "Cannot convert undefined or null to object") ∧
  events r = [EInvoke 0 "valueOf" VUndefined] ∧
  final r = world_A ∧
  ∃ comp, components (final r) !! 0 = Some comp ∧
          dataSources comp !! "valueOf" = None ∧
          updaters comp !! "valueOf" = None.
Proof.
  split_and!; [reflexivity|reflexivity|reflexivity|].
  eexists. split_and!; reflexivity.
Qed.


(** ** Registration *)

Lemma rememberSymbol_run s c d w st :
  stores w !! s = Some st →
  outcome (rememberSymbol s c d w) = Ok tt ∧
  events (rememberSymbol s c d w) = [] ∧
  components (final (rememberSymbol s c d w)) = components w ∧
  stores (final (rememberSymbol s c d w)) !! s =
    Some (Store (initialData st) (assoc_set c d (subscribers st))) ∧
  (∀ s', s' ≠ s → stores (final (rememberSymbol s c d w)) !! s' = stores w !! s').
Proof.
  intros Hs. unfold rememberSymbol, bind, get_store, set_subscribers. rewrite Hs.
  unfold outcome, final, events. simpl. split_and!; try done.
  - by rewrite list_lookup_alter_eq, Hs.
  - intros s' Hne. by rewrite list_lookup_alter_ne.
Qed.

Lemma forgetSymbol_run s c w st :
  stores w !! s = Some st →
  outcome (forgetSymbol s c w) = Ok tt ∧
  events (forgetSymbol s c w) = [] ∧
  components (final (forgetSymbol s c w)) = components w ∧
  stores (final (forgetSymbol s c w)) !! s =
    Some (Store (initialData st) (assoc_delete c (subscribers st))) ∧
  (∀ s', s' ≠ s → stores (final (forgetSymbol s c w)) !! s' = stores w !! s').
Proof.
  intros Hs. unfold forgetSymbol, bind, get_store, set_subscribers. rewrite Hs.
  unfold outcome, final, events. simpl. split_and!; try done.
  - by rewrite list_lookup_alter_eq, Hs.
  - intros s' Hne. by rewrite list_lookup_alter_ne.
Qed.

(** C6. In every world a program can reach, each store holds at most one
    registry entry per component; and registering a component twice, with
    whatever two arguments, leaves the store holding for that component the
    second argument and nothing else. *)
Theorem registration_replaces w s st c d1 d2 :
  reachable w →
  stores w !! s = Some st →
  let r := (rememberSymbol s c d1 ;;; rememberSymbol s c d2) w in
  NoDup (subscribers st).*1 ∧
  outcome r = Ok tt ∧
  ∃ st', stores (final r) !! s = Some st' ∧
         NoDup (subscribers st').*1 ∧
         entries_for c (subscribers st') = [(c, d2)] ∧
         assoc_get c (subscribers st') = Some d2.
Proof.
  intros Hreach Hs r.
  pose proof (reachable_registry_unique w Hreach s st Hs) as Hnd.
  destruct (rememberSymbol_run s c d1 w st Hs) as (Ho1 & He1 & _ & Hs1 & _).
  destruct (rememberSymbol_run s c d2 _ _ Hs1) as (Ho2 & He2 & _ & Hs2 & _).
  simpl in Hs2.
  subst r. rewrite run_bind, Ho1. unfold outcome at 1, final at 1. simpl.
  split_and!; [done|done|].
  eexists. split; [exact Hs2|]. simpl. split_and!.
  - by do 2 apply assoc_set_NoDup.
  - apply entries_for_set. by apply assoc_set_NoDup.
  - apply assoc_get_set_eq.
Qed.

Lemma registration_replaces_witness :
  reachable world_A ∧
  ∃ st', stores (final ((rememberSymbol 0 0 (descriptor [label_entry]) ;;;
                          rememberSymbol 0 0 (descriptor [])) world_A)) !! 0 = Some st' ∧
         entries_for 0 (subscribers st') = [(0, descriptor [])].
Proof.
  assert (reachable world_A) as Hreach by (exists program_A; reflexivity).
  split; [exact Hreach|].
  destruct (registration_replaces world_A 0
              {| initialData := plain [("value", VNum 0)];
                 subscribers := [(0, descriptor [label_entry])] |}
              0 (descriptor [label_entry]) (descriptor []) Hreach eq_refl)
    as (_ & _ & st' & Hst' & _ & Hentries & _).
  exists st'. split; [exact Hst'|exact Hentries].
Defined.


(** ** Delegation *)

Lemma obj_has_finds k (r : entry) :
  obj_has k r = true ↔ k ∈ r.*1 ∨ is_Some (inherited k).
Proof.
  unfold obj_has. rewrite orb_true_iff, !bool_decide_eq_true.
  assert (is_Some (assoc_get k r) ↔ k ∈ r.*1) as ->; [|done].
  destruct (assoc_get k r) as [v|] eqn:Hget.
  - split; [intros _|by eexists].
    apply assoc_get_Some_elem in Hget. apply list_elem_of_fmap. by exists (k, v).
  - apply assoc_get_None in Hget. split; [by intros [? ?]|done].
Qed.

Lemma delegate_keeps_finds fields r :
  delegate_keeps fields r = true ↔ finds_some fields r.
Proof.
  unfold delegate_keeps, finds_some. rewrite existsb_exists, Exists_exists.
  split; intros (field & Hin & Hk); exists field.
  - split; [by apply list_elem_of_In|by apply obj_has_finds].
  - split; [by apply list_elem_of_In|by apply obj_has_finds].
Qed.

Lemma delegate_filter fields (D : list entry) :
  List.filter (delegate_keeps fields) D = filter (finds_some fields) D.
Proof.
  induction D as [|r D IH]; [done|]. simpl. rewrite filter_cons, IH.
  destruct (delegate_keeps fields r) eqn:Hk.
  - rewrite decide_True; [done|]. by apply delegate_keeps_finds.
  - rewrite decide_False; [done|]. rewrite <- delegate_keeps_finds. by rewrite Hk.
Qed.

(** With source names that no object inherits, [in] finds a name exactly in
    the entries that declare it. *)
Lemma finds_declares fields r :
  Forall (λ field, inherited (source field) = None) fields →
  finds_some fields r ↔ declares_some fields r.
Proof.
  intros Hplain. unfold finds_some, declares_some. rewrite !Exists_exists.
  rewrite Forall_forall in Hplain.
  split; intros (field & Hin & Hk); exists field; (split; [done|]).
  - destruct Hk as [Hk|Hk]; [done|]. rewrite (Hplain _ Hin) in Hk. by destruct Hk.
  - by left.
Qed.

Lemma filter_finds_declares fields (D : list entry) :
  Forall (λ field, inherited (source field) = None) fields →
  filter (finds_some fields) D = filter (declares_some fields) D.
Proof.
  intros Hplain. induction D as [|r D IH]; [done|].
  rewrite !filter_cons, IH.
  destruct (decide (finds_some fields r)) as [Hf|Hf].
  - rewrite decide_True; [done|]. by apply finds_declares.
  - rewrite decide_False; [done|]. by rewrite <- finds_declares.
Qed.

Lemma delegate_entry_assign fields r :
  delegate_entry fields r =
  delegate_assign r fields [(remember_key, obj_get remember_key r)].
Proof. done. Qed.

Lemma delegate_assign_other r fields acc k :
  k ∉ target <$> fields →
  assoc_get k (delegate_assign r fields acc) = assoc_get k acc.
Proof.
  revert acc. induction fields as [|field fields IH]; intros acc Hk; [done|].
  rewrite fmap_cons, not_elem_of_cons in Hk. destruct Hk as [Hne Hk].
  simpl. rewrite IH; [|done]. by apply obj_set_get_ne.
Qed.

Lemma delegate_assign_target r fields acc field :
  NoDup (target <$> fields) → field ∈ fields →
  assoc_get (target field) (delegate_assign r fields acc) =
  Some (obj_get (source field) r).
Proof.
  revert acc. induction fields as [|field' fields IH]; intros acc Hnd Hin.
  - by apply elem_of_nil in Hin.
  - rewrite fmap_cons, NoDup_cons in Hnd. destruct Hnd as [Hnotin Hnd]. simpl.
    apply elem_of_cons in Hin as [->|Hin]; [|by apply IH].
    rewrite delegate_assign_other; [|done]. apply obj_set_get_eq.
Qed.

Lemma delegate_assign_keys r fields acc :
  NoDup (target <$> fields) →
  (∀ k, k ∈ target <$> fields → k ∉ acc.*1) →
  (delegate_assign r fields acc).*1 ≡ₚ acc.*1 ++ (target <$> fields).
Proof.
  revert acc. induction fields as [|field fields IH]; intros acc Hnd Hfresh.
  - simpl. by rewrite app_nil_r.
  - rewrite fmap_cons, NoDup_cons in Hnd. destruct Hnd as [Hnotin Hnd]. simpl.
    assert (target field ∉ acc.*1) as Hacc by (apply Hfresh; left).
    rewrite IH; [|done|].
    + rewrite obj_set_keys_new by done. by rewrite <- Permutation_middle.
    + intros k Hk. rewrite obj_set_keys_new by done.
      rewrite not_elem_of_cons. split; [|apply Hfresh; by right].
      intros ->. done.
Qed.



Lemma delegate_entry_image fields r :
  NoDup (target <$> fields) → remember_key ∉ target <$> fields →
  delegated_image fields r (delegate_entry fields r).
Proof.
  intros Hnd Hkey. rewrite delegate_entry_assign. split_and!.
  - rewrite delegate_assign_other; [|done].
    cbn [assoc_get]. by rewrite decide_True.
  - intros field Hin. by rewrite delegate_assign_target.
  - rewrite delegate_assign_keys; [done|done|].
    intros k Hk Hin. apply list_elem_of_singleton in Hin as ->. done.
Qed.

(** On the heap, the [map] callback appends one object, the one
    [delegate_entry] describes, and writes to no other. *)
Lemma delegate_map_run fields remembered h r :
  h !! remembered = Some r →
  delegate_map fields remembered h = (length h, h ++ [delegate_entry fields r]).
Proof.
  intros Hr. unfold delegate_map. f_equal.
  assert (heap_get h remembered remember_key = obj_get remember_key r) as ->.
  { unfold heap_get. by rewrite Hr. }
  rewrite delegate_entry_assign.
  generalize [(remember_key, obj_get remember_key r)].
  induction fields as [|field fields IH]; intros acc; [done|].
  cbn [foldl delegate_assign].
  assert (heap_get (h ++ [acc]) remembered (source field) = obj_get (source field) r)
    as ->.
  { unfold heap_get. by rewrite (lookup_app_l_Some _ _ _ _ Hr). }
  unfold heap_set at 2.
  rewrite (alter_app_r_alt _ h [acc] (length h)) by lia.
  rewrite Nat.sub_diag. cbn [alter list_alter].
  apply IH.
Qed.

Lemma delegate_map_all_run fields kept (rs : list entry) h :
  Forall2 (λ a r, h !! a = Some r) kept rs →
  delegate_map_all fields kept h =
  (seq (length h) (length rs), h ++ (delegate_entry fields <$> rs)).
Proof.
  intros Hkept. revert kept h Hkept.
  induction rs as [|r rs IH]; intros kept h Hkept.
  - apply Forall2_nil_inv_r in Hkept as ->. simpl. by rewrite app_nil_r.
  - apply Forall2_cons_inv_r in Hkept as (a & kept' & Ha & Hrest & ->).
    cbn [delegate_map_all]. rewrite (delegate_map_run _ _ _ _ Ha). cbn [fst snd].
    rewrite (IH kept' (h ++ [delegate_entry fields r])).
    + rewrite length_app. cbn [length fst snd seq fmap list_fmap].
      rewrite Nat.add_1_r. by rewrite <- app_assoc.
    + eapply Forall2_impl; [exact Hrest|]. intros a' r' Hr'.
      by apply lookup_app_l_Some.
Qed.

Lemma delegate_on_heap_run rememberedArg (D : list entry) fields h :
  Forall2 (λ a r, h !! a = Some r) rememberedArg D →
  delegate_on_heap rememberedArg fields h =
  (seq (length h) (length (delegate D fields)), h ++ delegate D fields).
Proof.
  intros Hrefs. unfold delegate_on_heap, delegate.
  rewrite (delegate_map_all_run fields _ (List.filter (delegate_keeps fields) D)).
  - by rewrite length_fmap.
  - induction Hrefs as [|a r refs D' Ha Hrefs IH]; [apply Forall2_nil_2|].
    cbn [List.filter]. unfold heap_has at 1. rewrite Ha. cbn [default from_option id].
    fold (delegate_keeps fields r).
    destruct (delegate_keeps fields r); [|exact IH].
    by apply Forall2_cons_2.
Qed.

Lemma appended_at_seq {A} (h l : list A) :
  Forall2 (λ a x, (h ++ l) !! a = Some x) (seq (length h) (length l)) l.
Proof.
  revert h. induction l as [|x l IH]; intros h; [apply Forall2_nil_2|].
  cbn [length seq]. apply Forall2_cons_2; [apply list_lookup_middle; done|].
  specialize (IH (h ++ [x])). rewrite length_app, Nat.add_1_r in IH.
  by rewrite <- app_assoc in IH.
Qed.

(** C4, as the code has it.  Take mappings whose target names are pairwise
    distinct and are neither ['_#remember'] nor [__proto__].  On a heap where
    the descriptor [D] lives at the addresses [rememberedArg], [delegate]
    allocates, in order, one new entry for each entry of [D] in which [in]
    finds a source name of the mappings, and nothing for the others; the
    new entry holds the same store, holds under each target name what the old
    entry gives under the source name (the dependency list as it is, or
    [undefined] where it lacks the field), and has no other property of its
    own.  When no source name is a name that every object inherits, the
    entries so found are the ones that declare a source field.  The heap
    after the call is the heap before it followed by the new entries: no
    object that existed is written to, and [D] reads as before. *)
Theorem delegate_renames h rememberedArg (D : list entry) fields :
  Forall2 (λ a r, h !! a = Some r) rememberedArg D →
  NoDup (target <$> fields) →
  remember_key ∉ target <$> fields →
  "__proto__" ∉ target <$> fields →
  let out := delegate_on_heap rememberedArg fields h in
  out = (seq (length h) (length (delegate D fields)), h ++ delegate D fields) ∧
  Forall2 (λ a new, out.2 !! a = Some new) out.1 (delegate D fields) ∧
  Forall2 (delegated_image fields) (filter (finds_some fields) D) (delegate D fields) ∧
  (Forall (λ field, inherited (source field) = None) fields →
     filter (finds_some fields) D = filter (declares_some fields) D) ∧
  Forall2 (λ a r, out.2 !! a = Some r) rememberedArg D.
Proof.
  intros Hrefs Hnd Hkey _ out. subst out.
  rewrite (delegate_on_heap_run _ _ _ _ Hrefs). cbn [fst snd].
  split_and!.
  - done.
  - apply appended_at_seq.
  - unfold delegate. rewrite delegate_filter.
    induction (filter (finds_some fields) D) as [|r kept IH]; simpl.
    + apply Forall2_nil_2.
    + apply Forall2_cons_2; [by apply delegate_entry_image|done].
  - apply filter_finds_declares.
  - eapply Forall2_impl; [exact Hrefs|]. intros a r Hr. by apply lookup_app_l_Some.
Qed.

Lemma delegate_renames_witness :
  delegate_on_heap [0; 1] [Mapping "name" "text"; Mapping "age" "years"]
    [[(remember_key, VStore 0); ("name", VArray [VStr "value"])];
     [(remember_key, VStore 1); ("size", VArray [VStr "width"])]] =
  ([2],
   [[(remember_key, VStore 0); ("name", VArray [VStr "value"])];
    [(remember_key, VStore 1); ("size", VArray [VStr "width"])];
    [(remember_key, VStore 0); ("text", VArray [VStr "value"]);
     ("years", VUndefined)]]).
Proof.
  destruct (delegate_renames
              [[(remember_key, VStore 0); ("name", VArray [VStr "value"])];
               [(remember_key, VStore 1); ("size", VArray [VStr "width"])]]
              [0; 1]
              [[(remember_key, VStore 0); ("name", VArray [VStr "value"])];
               [(remember_key, VStore 1); ("size", VArray [VStr "width"])]]
              [Mapping "name" "text"; Mapping "age" "years"]) as [Hout _].
  - repeat constructor.
  - apply (bool_decide_unpack _). vm_compute. exact I.
  - apply (bool_decide_unpack _). vm_compute. exact I.
  - apply (bool_decide_unpack _). vm_compute. exact I.
  - exact Hout.
Defined.

(** C4 as worded fails in three ways.  With two mappings onto one target
    name, the entry declares ["a"] and ["b"] and the new entry holds under
    ["x"] the list of ["b"] only.  With a source name that every object
    inherits, an entry that declares no such field is kept, and the new entry
    holds the inherited function.  With the target name ['_#remember'], the
    new entry no longer holds the store. *)
Lemma delegate_shared_target :
  (delegate shared_target_descriptor shared_target_mappings =
     [[(remember_key, VStore 0); ("x", VArray [VStr "q"])]] ∧
   ¬ Forall2 (delegated_image shared_target_mappings)
       (filter (declares_some shared_target_mappings) shared_target_descriptor)
       (delegate shared_target_descriptor shared_target_mappings)) ∧
  (filter (declares_some [Mapping "toString" "text"]) [label_entry] = [] ∧
   delegate [label_entry] [Mapping "toString" "text"] =
     [[(remember_key, VStore 0); ("text", VFunction toString)]]) ∧
  delegate [label_entry] [Mapping "label" remember_key] =
    [[(remember_key, VArray [VStr "value"])]].
Proof.
  split_and!; [reflexivity| |by vm_compute|reflexivity|reflexivity].
  intros Himage.
  assert (filter (declares_some shared_target_mappings) shared_target_descriptor
          = shared_target_descriptor) as Hkept by by vm_compute.
  rewrite Hkept in Himage.
  apply Forall2_cons_1 in Himage as [(_ & Hfields & _) _].
  specialize (Hfields (Mapping "a" "x")).
  assert (Mapping "a" "x" ∈ shared_target_mappings) as Hin by left.
  specialize (Hfields Hin). vm_compute in Hfields. discriminate.
Qed.


(** ** Deregistration by [destroy] *)

Section unregister.
Variables (c s : nat).
Let E : event → Prop := λ _, True.
Let I : world → Prop := unregistered c s.

Lemma unregistered_forgetSymbol s' : keeps I E (forgetSymbol s' c).
Proof.
  apply keeps_bind; [apply keeps_get_store|]. intros _.
  apply keeps_update. intros w [st [Hs Hc]]. unfold I, unregistered. simpl.
  destruct (decide (s' = s)) as [->|Hne].
  - eexists. rewrite list_lookup_alter_eq, Hs. split; [done|]. simpl.
    apply assoc_delete_not_elem.
  - exists st. by rewrite list_lookup_alter_ne.
Qed.

Lemma unregistered_entry_store r : keeps I E (entry_store r).
Proof.
  apply keeps_bind; [apply keeps_get_world|]. intros w.
  apply keeps_bind; [apply keeps_lift|]. intros x.
  destruct x; first [apply keeps_ret|apply keeps_throw].
Qed.

Lemma unregistered_loop items :
  keeps I E (for_each items (λ r, s' <- entry_store r ;; forgetSymbol s' c)).
Proof.
  apply keeps_for_each. intros r _.
  apply keeps_bind; [apply unregistered_entry_store|]. intros s'.
  apply unregistered_forgetSymbol.
Qed.
End unregister.

Lemma entry_store_object e w :
  entry_store (VObject e) w =
  match obj_get remember_key e with
  | VStore s => (Ok s, w, [])
  | _ => (Throw (TypeError "not a remembered object"), w, [])
  end.
Proof.
  unfold entry_store, bind, get_world, lift. simpl.
  by destruct (obj_get remember_key e).
Qed.

(** The deregistration loop of [destroy], run to its end over a list of
    entries, leaves every store the entries name without an entry for the
    component. *)
Lemma forget_loop_unregisters c (es : list entry) w :
  outcome (for_each (VObject <$> es)
             (λ r, s' <- entry_store r ;; forgetSymbol s' c) w) = Ok tt →
  ∀ e s, e ∈ es → obj_get remember_key e = VStore s →
         unregistered c s
           (final (for_each (VObject <$> es)
                     (λ r, s' <- entry_store r ;; forgetSymbol s' c) w)).
Proof.
  revert w. induction es as [|e0 es IH]; intros w Hout e s He Hstore.
  { by apply elem_of_nil in He. }
  rewrite fmap_cons in *. cbn [for_each] in *.
  rewrite run_bind in Hout. rewrite run_bind.
  set (body := (s' <- entry_store (VObject e0) ;; forgetSymbol s' c)) in *.
  destruct (outcome (body w)) as [[]|err] eqn:Hbody; [|done].
  unfold outcome at 1 in Hout. unfold final at 1. simpl in *.
  apply elem_of_cons in He as [->|He]; [|by apply (IH _ Hout e s)].
  apply (keeps_final _ _ _ _ (unregistered_loop c s (VObject <$> es))).
  subst body. unfold bind in Hbody |- *. rewrite entry_store_object in Hbody |- *.
  rewrite Hstore in Hbody |- *.
  destruct (stores w !! s) as [st|] eqn:Hs.
  - destruct (forgetSymbol_run s c w st Hs) as (_ & _ & _ & Hs' & _).
    destruct (forgetSymbol s c w) as [[r w'] evs]. unfold final in *. simpl in *.
    eexists. split; [exact Hs'|]. simpl. apply assoc_delete_not_elem.
  - rewrite forgetSymbol_missing_store in Hbody; [|done]. done.
Qed.

(** [destroy], step by step. *)
Lemma destroy_run c w comp :
  components w !! c = Some comp →
  destroy c w =
  let cleared :=
    {| stores := stores w;
       components :=
         alter (λ c0, {| dataSources := Object_assign (dataSources c0) ∅;
                         updaters := updaters c0;
                         root := root c0;
                         remembered := remembered c0 |}) c
           (alter (λ c0, {| dataSources := dataSources c0;
                            updaters := ∅;
                            root := root c0;
                            remembered := remembered c0 |}) c (components w));
       next_element := next_element w |} in
  match iterate (remembered comp) with
  | Ok items =>
      let r := for_each items (λ r, s <- entry_store r ;; forgetSymbol s c) cleared in
      (outcome r, final r, ERemove (root comp) :: events r)
  | Throw e => (Throw e, cleared, [ERemove (root comp)])
  end.
Proof.
  intros Hc. unfold destroy, bind at 1 2 3 4 5, get_component, emit, modify_component, lift.
  rewrite Hc. simpl.
  destruct (iterate (remembered comp)) as [items|e]; [|done]. simpl.
  by destruct (for_each items _ _) as [[? ?] ?].
Qed.

(** After [destroy()] has returned, no store named by an entry of the
    component's descriptor holds an entry for the component. *)
Lemma destroy_unregisters c w comp (es : list entry) :
  components w !! c = Some comp →
  remembered comp = descriptor es →
  outcome (destroy c w) = Ok tt →
  ∀ e s, e ∈ es → obj_get remember_key e = VStore s →
         unregistered c s (final (destroy c w)).
Proof.
  intros Hc Hrem. rewrite (destroy_run _ _ _ Hc), Hrem. simpl.
  unfold outcome at 1, final at 1. simpl.
  intros Hout e s He Hs. by apply (forget_loop_unregisters c es _ Hout e s).
Qed.

(** The three effects of [destroy] that the code does have, together. *)
Lemma destroy_effects c w comp (es : list entry) :
  components w !! c = Some comp →
  remembered comp = descriptor es →
  outcome (destroy c w) = Ok tt →
  (∃ evs, events (destroy c w) = ERemove (root comp) :: evs) ∧
  no_updaters c (final (destroy c w)) ∧
  (∀ e s, e ∈ es → obj_get remember_key e = VStore s →
          unregistered c s (final (destroy c w))).
Proof.
  intros Hc Hrem Hout. split_and!.
  - by apply destroy_removes_root.
  - destruct (destroy_quiet c w) as [_ Hq]; [by eexists|]. by rewrite Hout in Hq.
  - by eapply destroy_unregisters.
Qed.


(** ** The pass over one entry object

    What the scan and the calls do when the registered argument is
    enumerated field by field, as for a single entry object. *)

Lemma collect_fields_sublist h d p keys fs :
  collect_fields h d p keys = Ok fs → sublist fs keys.
Proof.
  revert fs. induction keys as [|k keys IH]; intros fs; simpl.
  - by intros [= <-].
  - destruct (decide (k = remember_key)).
    { intros Hfs. apply sublist_cons. by apply IH. }
    destruct (get_prop h d k) as [deps|]; [|done].
    destruct (opt_includes deps p) as [b|]; [|done].
    destruct (collect_fields h d p keys) as [fs'|]; [|done].
    intros [= <-]. destruct b.
    + apply sublist_skip. by apply IH.
    + apply sublist_cons. by apply IH.
Qed.

Lemma collect_fields_complete h d p keys fs f :
  collect_fields h d p keys = Ok fs →
  f ∈ keys → f ≠ remember_key → depends_on h d f p → f ∈ fs.
Proof.
  intros Hfs Hin Hne [deps [Hget Hinc]]. revert fs Hfs.
  induction keys as [|k keys IH]; intros fs; simpl.
  { by apply elem_of_nil in Hin. }
  destruct (decide (k = remember_key)) as [->|Hk].
  { intros Hfs. apply elem_of_cons in Hin as [->|Hin]; [done|]. by apply IH. }
  destruct (get_prop h d k) as [deps'|] eqn:Hget'; [|done].
  destruct (opt_includes deps' p) as [b|] eqn:Hinc'; [|done].
  destruct (collect_fields h d p keys) as [fs'|]; [|done].
  intros [= <-].
  apply elem_of_cons in Hin as [->|Hin].
  - rewrite Hget in Hget'. injection Hget' as <-.
    rewrite Hinc in Hinc'. injection Hinc' as <-. left.
  - destruct b; [right|]; by apply IH.
Qed.

Lemma invoke_field_run c oldValue f w comp u :
  components w !! c = Some comp → updaters comp !! f = Some u →
  invoke_field c oldValue f w =
  (outcome (run_updater u w), w, EInvoke c f oldValue :: events (run_updater u w)).
Proof.
  intros Hc Hu. unfold invoke_field, call_updater, bind, get_component, emit.
  rewrite Hc. simpl. rewrite Hu.
  pose proof (run_updater_final u w) as Hfinal. unfold outcome, events.
  destruct (run_updater u w) as [[r w'] evs]. unfold final in Hfinal.
  simpl in *. by subst w'.
Qed.

Lemma run_updater_no_invoke u w c f :
  List.filter (is_invoke_for c f) (events (run_updater u w)) = [].
Proof.
  pose proof (run_updater_events u w) as Hev.
  induction (events (run_updater u w)) as [|e evs IH]; [done|].
  apply Forall_cons in Hev as [He Hev]. simpl.
  destruct e; try done; by apply IH.
Qed.

Section entry_pass.
Variables (c : nat) (oldValue : value) (w : world) (comp : component).
Hypothesis Hcomp : components w !! c = Some comp.
Hypothesis Hruns : ∀ f u, updaters comp !! f = Some u → outcome (run_updater u w) = Ok tt.

Lemma invoke_field_outcome f :
  outcome (invoke_field c oldValue f w) = Ok tt ∧
  final (invoke_field c oldValue f w) = w.
Proof.
  destruct (updaters comp !! f) as [u|] eqn:Hu.
  - rewrite (invoke_field_run _ _ _ _ _ _ Hcomp Hu). split; [|done].
    by apply (Hruns f).
  - by rewrite (invoke_field_no_updater _ _ _ _ _ Hcomp Hu).
Qed.

Lemma invoke_fields_other f fs :
  f ∉ fs →
  List.filter (is_invoke_for c f) (events (for_each fs (invoke_field c oldValue) w)) = [].
Proof.
  induction fs as [|f' fs IH]; intros Hnotin; [done|].
  rewrite not_elem_of_cons in Hnotin. destruct Hnotin as [Hne Hnotin].
  cbn [for_each]. rewrite run_bind.
  destruct (invoke_field_outcome f') as [-> ->].
  unfold events at 1. cbn [fst snd]. rewrite List.filter_app, (IH Hnotin), app_nil_r.
  destruct (updaters comp !! f') as [u|] eqn:Hu.
  - rewrite (invoke_field_run _ _ _ _ _ _ Hcomp Hu). unfold events at 1. simpl.
    rewrite bool_decide_true, (bool_decide_false (f' = f)) by done. simpl.
    apply run_updater_no_invoke.
  - by rewrite (invoke_field_no_updater _ _ _ _ _ Hcomp Hu).
Qed.

Lemma invoke_fields_once f u fs :
  updaters comp !! f = Some u → NoDup fs → f ∈ fs →
  List.filter (is_invoke_for c f) (events (for_each fs (invoke_field c oldValue) w))
  = [EInvoke c f oldValue].
Proof.
  intros Hu. induction fs as [|f' fs IH]; intros Hnd Hin.
  { by apply elem_of_nil in Hin. }
  apply NoDup_cons in Hnd as [Hnotin Hnd].
  cbn [for_each]. rewrite run_bind.
  destruct (invoke_field_outcome f') as [-> ->].
  unfold events at 1. cbn [fst snd]. rewrite List.filter_app.
  apply elem_of_cons in Hin as [<-|Hin].
  - rewrite (invoke_fields_other _ _ Hnotin), app_nil_r.
    rewrite (invoke_field_run _ _ _ _ _ _ Hcomp Hu). unfold events at 1. simpl.
    rewrite !bool_decide_true by done. simpl. f_equal.
    apply run_updater_no_invoke.
  - rewrite (IH Hnd Hin).
    assert (f' ≠ f) as Hne by (intros ->; done).
    destruct (updaters comp !! f') as [u'|] eqn:Hu'.
    + rewrite (invoke_field_run _ _ _ _ _ _ Hcomp Hu'). unfold events at 1. simpl.
      rewrite bool_decide_true, (bool_decide_false (f' = f)) by done. simpl.
      by rewrite run_updater_no_invoke.
    + by rewrite (invoke_field_no_updater _ _ _ _ _ Hcomp Hu').
Qed.

(** When the scan of the registered argument [d] completes, a field of [d]
    that lists [p] and has an updater gets exactly one call, with the
    previous value. *)
Lemma enumerated_field_notified_once p d f u :
  NoDup (own_keys (stores w) d) →
  (∃ fs, fields_to_update (stores w) d p = Ok fs) →
  f ∈ own_keys (stores w) d → f ≠ remember_key →
  depends_on (stores w) d f p →
  updaters comp !! f = Some u →
  List.filter (is_invoke_for c f)
    (events (notify_subscriber p oldValue (c, d) w)) = [EInvoke c f oldValue].
Proof.
  intros Hnd [fs Hfs] Hin Hne Hdep Hu.
  rewrite notify_subscriber_run, Hfs.
  apply (invoke_fields_once f u); [done| |].
  - eapply sublist_NoDup; [exact Hnd|by eapply collect_fields_sublist].
  - by eapply collect_fields_complete.
Qed.
End entry_pass.


(** ** A deregistered component stays deregistered *)

Section gone.
Variables (c s : nat).
Let E : event → Prop := λ _, True.
Let I : world → Prop := deregistered c s.

Lemma gone_events (evs : list event) : Forall E evs.
Proof. by apply Forall_true. Qed.

Lemma gone_same_heaps {A} (m : M A) :
  (∀ w, stores (final (m w)) = stores w) →
  (∀ w, is_Some (components w !! c) → is_Some (components (final (m w)) !! c)) →
  keeps I E m.
Proof.
  intros Hst Hc w [[st [Hs Hnotin]] Hcomp]. split; [apply gone_events|].
  assert (I (final (m w))) as HI'.
  { split; [|by apply Hc]. exists st. by rewrite Hst. }
  by destruct (outcome (m w)).
Qed.

Lemma gone_set_target s' t : keeps I E (set_target s' t).
Proof.
  apply keeps_update. intros w [[st [Hs Hnotin]] Hcomp]. split; [|done].
  unfold unregistered. simpl. destruct (decide (s' = s)) as [->|Hne].
  - eexists. rewrite list_lookup_alter_eq, Hs. by split.
  - exists st. by rewrite list_lookup_alter_ne.
Qed.

Lemma gone_set_subscribers s' f :
  (∀ m : list (nat * value), c ∉ m.*1 → c ∉ (f m).*1) →
  keeps I E (set_subscribers s' f).
Proof.
  intros Hf. apply keeps_update. intros w [[st [Hs Hnotin]] Hcomp]. split; [|done].
  unfold unregistered. simpl. destruct (decide (s' = s)) as [->|Hne].
  - eexists. rewrite list_lookup_alter_eq, Hs. split; [done|]. simpl. by apply Hf.
  - exists st. by rewrite list_lookup_alter_ne.
Qed.

Lemma gone_remember data : keeps I E (remember data).
Proof.
  intros w [[st [Hs Hnotin]] Hcomp]. split; [apply gone_events|].
  split; [|done]. exists st. split; [|done]. simpl. by apply lookup_app_l_Some.
Qed.

Lemma gone_createElement tag : keeps I E (createElement tag).
Proof. by apply gone_same_heaps. Qed.

Lemma gone_modify_component c' f : keeps I E (modify_component c' f).
Proof.
  apply gone_same_heaps; [done|]. intros w [comp Hc]. unfold final. simpl.
  destruct (decide (c' = c)) as [->|Hne].
  - rewrite list_lookup_alter_eq, Hc. by eexists.
  - rewrite list_lookup_alter_ne; [|done]. by eexists.
Qed.

Lemma gone_rememberSymbol s' c' d : c' ≠ c → keeps I E (rememberSymbol s' c' d).
Proof.
  intros Hne. apply keeps_bind; [apply keeps_get_store|]. intros _.
  apply gone_set_subscribers. intros m Hm. rewrite assoc_set_keys.
  case_decide; [done|]. rewrite not_elem_of_app. split; [done|].
  intros Hin. apply list_elem_of_singleton in Hin. done.
Qed.

Lemma gone_forgetSymbol s' c' : keeps I E (forgetSymbol s' c').
Proof.
  apply keeps_bind; [apply keeps_get_store|]. intros _.
  apply gone_set_subscribers. intros m Hm Hin. apply Hm.
  apply list_elem_of_fmap in Hin as [kv [-> Hkv]].
  apply list_elem_of_fmap. exists kv. split; [done|].
  by apply (assoc_delete_subseteq c').
Qed.

Lemma gone_entry_store r : keeps I E (entry_store r).
Proof.
  apply keeps_bind; [apply keeps_get_world|]. intros w.
  apply keeps_bind; [apply keeps_lift|]. intros x.
  destruct x; first [apply keeps_ret|apply keeps_throw].
Qed.

Lemma gone_call_updater c' f u a : keeps I E (call_updater c' f u a).
Proof.
  apply keeps_bind; [by apply keeps_emit|]. intros _. by apply keeps_run_updater.
Qed.

Lemma gone_store_set s' p v : keeps I E (store_set s' p v).
Proof.
  apply keeps_bind; [apply keeps_get_store|]. intros st.
  apply keeps_bind; [apply gone_set_target|]. intros _.
  apply keeps_bind; [|intros _; apply keeps_ret].
  apply keeps_for_each. intros [c' d] _.
  apply keeps_bind; [apply keeps_get_world|]. intros w.
  apply keeps_bind; [apply keeps_lift|]. intros fs.
  apply keeps_for_each. intros f _.
  apply keeps_bind; [apply keeps_get_component|]. intros comp.
  destruct (updaters comp !! f); [apply gone_call_updater|apply keeps_ret].
Qed.

(** A new component is not the old one. *)
Lemma gone_new_Component ds tag rem : keeps I E (new_Component ds tag rem).
Proof.
  unfold new_Component.
  apply keeps_bind; [apply gone_createElement|]. intros el.
  eapply hoare_bind with (Q := λ this w, I w ∧ this ≠ c).
  { intros w [[st [Hs Hnotin]] Hcomp]. split; [apply gone_events|].
    unfold outcome, final, alloc_component. simpl. split.
    - split; [by exists st|]. destruct Hcomp as [comp Hc]. exists comp.
      by apply lookup_app_l_Some.
    - apply lookup_lt_is_Some in Hcomp. lia. }
  intros this w [HI Hne]. revert w HI.
  apply keeps_bind; [apply keeps_lift|]. intros items.
  apply keeps_bind; [|intros _; apply keeps_ret].
  apply keeps_for_each. intros r _.
  apply keeps_bind; [apply gone_entry_store|]. intros s'.
  by apply gone_rememberSymbol.
Qed.

Lemma gone_setUpdater this f u : keeps I E (setUpdater this f u).
Proof.
  apply keeps_bind; [apply gone_call_updater|]. intros _.
  apply keeps_bind; [apply keeps_get_component|]. intros _.
  apply gone_modify_component.
Qed.

Lemma gone_bind_field b this f element : keeps I E (bind_field b this f element).
Proof.
  destruct b; simpl.
  all: apply keeps_bind; [|intros el; apply gone_setUpdater].
  all: apply keeps_bind; [apply keeps_get_component|]; intros comp; apply keeps_ret.
Qed.

Lemma gone_destroy this : keeps I E (destroy this).
Proof.
  apply keeps_bind; [apply keeps_get_component|]. intros comp.
  apply keeps_bind; [by apply keeps_emit|]. intros _.
  apply keeps_bind; [apply gone_modify_component|]. intros _.
  apply keeps_bind; [apply gone_modify_component|]. intros _.
  apply keeps_bind; [apply keeps_lift|]. intros items.
  apply keeps_for_each. intros r _.
  apply keeps_bind; [apply gone_entry_store|]. intros s'.
  apply gone_forgetSymbol.
Qed.

Lemma gone_step o : ¬ op_registers c o → keeps I E (step o).
Proof.
  intros Hreg. destruct o; simpl in *.
  - apply keeps_discard, gone_remember.
  - apply keeps_discard, gone_new_Component.
  - apply gone_bind_field.
  - apply gone_setUpdater.
  - apply keeps_discard. apply keeps_bind; [apply keeps_get_store|].
    intros st. apply keeps_ret.
  - apply keeps_discard, gone_store_set.
  - apply keeps_bind; [apply keeps_get_component|]. intros _.
    by apply gone_rememberSymbol.
  - apply keeps_bind; [apply keeps_get_component|]. intros _. apply gone_forgetSymbol.
  - apply gone_destroy.
Qed.
End gone.

(** A store that holds no entry for a component calls none of its updaters. *)
Lemma unregistered_store_set c s p v w :
  unregistered c s w →
  Forall (λ e, is_invoke_of c e = false) (events (store_set s p v w)).
Proof.
  intros [st [Hs Hnotin]]. apply Forall_forall. intros e He.
  destruct e as [| | | | | | |c' f arg]; try done.
  simpl. apply bool_decide_eq_false. intros ->.
  destruct (store_set_invocations _ _ _ _ _ _ _ He) as (st' & d & Hs' & Hd & _).
  rewrite Hs in Hs'. injection Hs' as <-.
  apply Hnotin. apply list_elem_of_fmap. by exists (c, d).
Qed.

(** C7. After [destroy()] has returned, no write to a store that the
    component's descriptor referenced calls one of its updaters, however the
    program goes on, as long as the component is not handed to a store again;
    no write to any store does, as long as the component is not given an
    updater again; and deregistering a component that a store does not hold
    leaves the world as it is and raises nothing. *)
Theorem destroy_deregisters c w comp (es : list entry) :
  components w !! c = Some comp →
  remembered comp = descriptor es →
  outcome (destroy c w) = Ok tt →
  let w' := final (destroy c w) in
  (∀ ops e s p v,
     Forall (λ o, ¬ op_registers c o) ops →
     e ∈ es → obj_get remember_key e = VStore s →
     Forall (λ ev, is_invoke_of c ev = false)
            (events (store_set s p v (run_ops ops w').1))) ∧
  (∀ ops s p v,
     Forall (λ o, ¬ op_binds c o) ops →
     Forall (λ ev, is_invoke_of c ev = false) (run_ops ops w').2 ∧
     Forall (λ ev, is_invoke_of c ev = false)
            (events (store_set s p v (run_ops ops w').1))) ∧
  (∀ w0 s st, stores w0 !! s = Some st → c ∉ (subscribers st).*1 →
              forgetSymbol s c w0 = (Ok tt, w0, [])).
Proof.
  intros Hc Hrem Hout w'.
  destruct (destroy_effects c w comp es Hc Hrem Hout) as (_ & Hquiet & Hgone).
  fold w' in Hquiet, Hgone.
  assert (is_Some (components w' !! c)) as Hexists.
  { destruct Hquiet as [comp' [Hc' _]]. by eexists. }
  split_and!.
  - intros ops e s p v Hops He Hs.
    apply unregistered_store_set.
    destruct (run_ops_keeps (deregistered c s) (λ _, True) ops w') as [[Hun _] _].
    + eapply Forall_impl; [exact Hops|]. intros o Ho. by apply gone_step.
    + split; [by eapply Hgone|done].
    + done.
  - intros ops s p v Hops.
    destruct (run_ops_keeps (no_updaters c) (λ e, is_invoke_of c e = false) ops w')
      as [Hquiet' Hev]; [|done|].
    { eapply Forall_impl; [exact Hops|]. intros o Ho. by apply quiet_step. }
    split; [done|]. by eapply keeps_events; [apply quiet_store_set|].
  - intros w0 s st. apply forgetSymbol_absent.
Qed.

Lemma destroy_deregisters_witness :
  Forall (λ ev, is_invoke_of 0 ev = false)
    (events (store_set 0 "value" (VNum 99)
               (run_ops [OWrite 0 "value" (VNum 1); OBind BInnerText 0 "label" None]
                        (final (destroy 0 world_entry))).1)).
Proof.
  destruct (destroy_deregisters 0 world_entry
              {| dataSources := {["label" := read_store 0 "value"]};
                 updaters := {["label" := UInnerText 0 "label" 0]};
                 root := 0;
                 remembered := descriptor [label_entry] |}
              [label_entry] eq_refl eq_refl eq_refl) as [Hreferenced _].
  apply (Hreferenced [OWrite 0 "value" (VNum 1); OBind BInnerText 0 "label" None]
           label_entry 0 "value" (VNum 99)).
  - repeat (apply Forall_cons; split; [simpl; tauto|]). apply Forall_nil_2.
  - left.
  - reflexivity.
Defined.


(** * Further properties of the code *)

(** ** Reads and writes of a store *)




(** What a write leaves behind, whether the pass returns or throws. *)
Lemma store_set_stores s p v w st :
  stores w !! s = Some st →
  stores (final (store_set s p v w)) !! s =
    Some (Store (Reflect_set (initialData st) p v).1 (subscribers st)) ∧
  (∀ s', s' ≠ s → stores (final (store_set s p v w)) !! s' = stores w !! s') ∧
  components (final (store_set s p v w)) = components w ∧
  next_element (final (store_set s p v w)) = next_element w.
Proof.
  intros Hs. rewrite (store_set_final _ _ _ _ _ Hs). unfold final, set_target. simpl.
  split_and!; [|intros s' Hne|done|done].
  - by rewrite list_lookup_alter_eq, Hs.
  - by rewrite list_lookup_alter_ne.
Qed.



(** ** The pass over a whole registry *)

Lemma for_each_app {A} (xs ys : list A) (body : A → M unit) w :
  for_each (xs ++ ys) body w = (for_each xs body ;;; for_each ys body) w.
Proof.
  revert w. induction xs as [|x xs IH]; intros w.
  - simpl. unfold bind, ret. destruct (for_each ys body w) as [[r w'] evs]. reflexivity.
  - cbn [for_each app]. unfold bind.
    destruct (body x w) as [[[[]|err] w1] e1]; [|reflexivity].
    rewrite IH. unfold bind.
    destruct (for_each xs body w1) as [[[[]|err] w2] e2]; [|reflexivity].
    destruct (for_each ys body w2) as [[r w3] e3]. by rewrite app_assoc.
Qed.


Lemma run_updater_live u w : updater_live w u → outcome (run_updater u w) = Ok tt.
Proof. done. Qed.

Lemma notify_subscriber_ready p oldValue c d w :
  pass_ready w p [(c, d)] →
  outcome (notify_subscriber p oldValue (c, d) w) = Ok tt ∧
  final (notify_subscriber p oldValue (c, d) w) = w.
Proof.
  intros Hready. destruct (Hready c d) as [[fs Hfs] (comp & Hc & Hlive)]; [left|].
  rewrite notify_subscriber_run, Hfs. clear Hfs.
  induction fs as [|f fs IH]; [done|].
  cbn [for_each]. rewrite run_bind.
  destruct (invoke_field_outcome c oldValue w comp Hc) with (f := f) as [-> ->].
  { intros f' u Hu. apply run_updater_live. by eapply Hlive. }
  unfold outcome at 1, final at 1. simpl. exact IH.
Qed.

Lemma notify_subscriber_other p oldValue c' d w c f :
  c' ≠ c →
  List.filter (is_invoke_for c f) (events (notify_subscriber p oldValue (c', d) w)) = [].
Proof.
  intros Hne.
  destruct (notify_subscriber_keeps p oldValue w [(c', d)] c' d) with (w := w)
    as [Hev _]; [left|done|].
  induction (events (notify_subscriber p oldValue (c', d) w)) as [|e evs IH]; [done|].
  apply Forall_cons in Hev as [He Hev]. simpl. rewrite (IH Hev).
  destruct He as [Hr|(c0 & d0 & f0 & Hin & -> & _)].
  - by destruct e.
  - apply list_elem_of_singleton in Hin. injection Hin as -> ->. simpl.
    by rewrite bool_decide_false.
Qed.

Lemma pass_ready_cons w p cd subs :
  pass_ready w p (cd :: subs) → pass_ready w p [cd] ∧ pass_ready w p subs.
Proof.
  intros Hready. split; intros c d Hin; apply Hready.
  - apply list_elem_of_singleton in Hin as ->. left.
  - by right.
Qed.

Lemma pass_ready_outcome p oldValue subs w :
  pass_ready w p subs →
  outcome (for_each subs (notify_subscriber p oldValue) w) = Ok tt.
Proof.
  induction subs as [|[c d] subs IH]; intros Hready; [done|].
  apply pass_ready_cons in Hready as [Hhead Htail].
  cbn [for_each]. rewrite run_bind.
  destruct (notify_subscriber_ready p oldValue c d w Hhead) as [-> ->].
  unfold outcome at 1. simpl. by apply IH.
Qed.

Lemma pass_ready_once p oldValue subs w c d comp f u :
  pass_ready w p subs →
  NoDup subs.*1 → (c, d) ∈ subs →
  components w !! c = Some comp → updaters comp !! f = Some u →
  NoDup (own_keys (stores w) d) → f ∈ own_keys (stores w) d → f ≠ remember_key →
  depends_on (stores w) d f p →
  List.filter (is_invoke_for c f)
    (events (for_each subs (notify_subscriber p oldValue) w)) = [EInvoke c f oldValue].
Proof.
  intros Hready Hnd Hin Hc Hu Hkeys Hf Hne Hdep.
  assert (∀ subs', pass_ready w p subs' → c ∉ subs'.*1 →
            List.filter (is_invoke_for c f)
              (events (for_each subs' (notify_subscriber p oldValue) w)) = [])
    as Hothers.
  { induction subs' as [|[c' d'] subs' IH]; intros Hready' Hnotin; [done|].
    apply pass_ready_cons in Hready' as [Hhead Htail].
    rewrite fmap_cons, not_elem_of_cons in Hnotin. destruct Hnotin as [Hc' Hnotin].
    cbn [for_each]. rewrite run_bind.
    destruct (notify_subscriber_ready p oldValue c' d' w Hhead) as [-> ->].
    unfold events at 1. cbn [fst snd]. rewrite List.filter_app.
    rewrite (IH Htail Hnotin), app_nil_r. apply notify_subscriber_other.
    intros ->. by apply Hc'. }
  induction subs as [|[c' d'] subs IH]; [by apply elem_of_nil in Hin|].
  apply pass_ready_cons in Hready as [Hhead Htail].
  rewrite fmap_cons in Hnd. apply NoDup_cons in Hnd as [Hnotin Hnd].
  cbn [for_each]. rewrite run_bind.
  destruct (notify_subscriber_ready p oldValue c' d' w Hhead) as [-> ->].
  unfold events at 1. cbn [fst snd]. rewrite List.filter_app.
  apply elem_of_cons in Hin as [[= <- <-]|Hin].
  - rewrite (Hothers subs Htail Hnotin), app_nil_r.
    destruct (Hhead c d) as [Hscan (comp' & Hc' & Hlive)]; [left|].
    rewrite Hc in Hc'. injection Hc' as <-.
    apply (enumerated_field_notified_once c oldValue w comp Hc) with (u := u); done.
  - rewrite (IH Htail Hnd Hin).
    rewrite notify_subscriber_other; [done|].
    intros ->. apply Hnotin. apply list_elem_of_fmap. by exists (c, d).
Qed.

(** X4. When every subscriber of a store can be notified, a write returns
    what [Reflect.set] returns, and each field of a registered argument that
    lists the written property and has an updater gets exactly one call, with
    the value the property held before the write. *)
Theorem write_notifies_once s p v w st c d comp f u :
  stores w !! s = Some st →
  let w' := final (store_set s p v w) in
  pass_ready w' p (subscribers st) →
  NoDup (subscribers st).*1 → (c, d) ∈ subscribers st →
  components w !! c = Some comp → updaters comp !! f = Some u →
  NoDup (own_keys (stores w') d) → f ∈ own_keys (stores w') d → f ≠ remember_key →
  depends_on (stores w') d f p →
  outcome (store_set s p v w) = Ok (Reflect_set (initialData st) p v).2 ∧
  List.filter (is_invoke_for c f) (events (store_set s p v w)) =
    [EInvoke c f (Reflect_get (initialData st) p)].
Proof.
  intros Hs w' Hready Hnd Hin Hc Hu Hkeys Hf Hne Hdep.
  destruct (store_set_stores s p v w st Hs) as (_ & _ & Hcomps & _).
  pose proof (store_set_final s p v w st Hs) as Hfinal. fold w' in Hfinal, Hcomps.
  split.
  - rewrite (store_set_run _ _ _ _ _ Hs), run_bind, <- Hfinal.
    by rewrite (pass_ready_outcome _ _ _ _ Hready).
  - rewrite (store_set_events _ _ _ _ _ Hs), <- Hfinal.
    apply pass_ready_once with d comp u; try done. by rewrite Hcomps.
Qed.

Lemma write_notifies_once_witness :
  outcome (store_set 0 "value" (VNum 5) world_entry) = Ok false ∧
  List.filter (is_invoke_for 0 "label")
    (events (store_set 0 "value" (VNum 5) world_entry)) =
    [EInvoke 0 "label" (VNum 0)].
Proof.
  apply (write_notifies_once 0 "value" (VNum 5) world_entry
           {| initialData := frozen [("value", VNum 0)];
              subscribers := [(0, VObject label_entry)] |}
           0 (VObject label_entry)
           {| dataSources := {["label" := read_store 0 "value"]};
              updaters := {["label" := UInnerText 0 "label" 0]};
              root := 0;
              remembered := descriptor [label_entry] |}
           "label" (UInnerText 0 "label" 0)).
  - reflexivity.
  - intros c d Hin. apply list_elem_of_singleton in Hin. injection Hin as -> ->.
    split; [by eexists|]. eexists. split; [reflexivity|].
    intros f u Hu. simpl in Hu.
    apply lookup_singleton_Some in Hu as [_ <-]. by eexists.
  - apply (bool_decide_unpack _). by vm_compute.
  - left.
  - reflexivity.
  - reflexivity.
  - apply (bool_decide_unpack _). by vm_compute.
  - right. left.
  - done.
  - eexists. split; reflexivity.
Defined.


(** ** The registration loops of the constructor and of [destroy] *)

Lemma names_store_same w w' e :
  length (stores w') = length (stores w) → names_store w e → names_store w' e.
Proof. intros Hlen (s & Hs & Hlt). exists s. by rewrite Hlen. Qed.

Lemma update_referenced_lookup g es w s :
  update_referenced g es w !! s =
  (λ st, if references es s
         then Store (initialData st) (g (subscribers st)) else st) <$> stores w !! s.
Proof. unfold update_referenced. by rewrite list_lookup_imap. Qed.

Lemma update_referenced_length g es w :
  length (update_referenced g es w) = length (stores w).
Proof. unfold update_referenced. apply length_imap. Qed.

Lemma update_referenced_nil g w : update_referenced g [] w = stores w.
Proof.
  apply list_eq. intros s. rewrite update_referenced_lookup. simpl.
  by destruct (stores w !! s).
Qed.

Section loop.
Variable g : list (nat * value) → list (nat * value).
Hypothesis g_idem : ∀ m, g (g m) = g m.

Let body : value → M unit :=
  λ r, s <- entry_store r ;; get_store s ;;; set_subscribers s g.

Lemma loop_step e s w :
  obj_get remember_key e = VStore s → s < length (stores w) →
  body (VObject e) w =
  (Ok tt,
   {| stores := alter (λ st, Store (initialData st) (g (subscribers st))) s (stores w);
      components := components w;
      next_element := next_element w |},
   []).
Proof.
  intros Hs Hlt. unfold body, bind at 1. rewrite entry_store_object, Hs.
  apply lookup_lt_is_Some in Hlt as [st Hst].
  unfold bind, get_store, set_subscribers. by rewrite Hst.
Qed.

Lemma loop_bad e w :
  (∀ s, obj_get remember_key e ≠ VStore s) →
  body (VObject e) w = (Throw (TypeError "not a remembered object"), w, []).
Proof.
  intros Hbad. unfold body, bind. rewrite entry_store_object.
  destruct (obj_get remember_key e) as [| | | | |s| | | |]; try done.
  by destruct (Hbad s).
Qed.

Lemma loop_run es w :
  Forall (names_store w) es →
  for_each (VObject <$> es) body w =
  (Ok tt,
   {| stores := update_referenced g es w;
      components := components w;
      next_element := next_element w |},
   []).
Proof.
  revert w. induction es as [|e es IH]; intros w Hgood.
  { simpl. unfold ret. rewrite update_referenced_nil. by destruct w. }
  apply Forall_cons in Hgood as [(s & Hs & Hlt) Hgood].
  rewrite fmap_cons. cbn [for_each]. unfold bind.
  rewrite (loop_step e s w Hs Hlt).
  set (w1 := {| stores := alter _ s (stores w) |}).
  rewrite (IH w1).
  2:{ eapply Forall_impl; [exact Hgood|]. intros e'. apply names_store_same.
      unfold w1. simpl. apply length_alter. }
  simpl. do 2 f_equal. f_equal.
  apply list_eq. intros i. rewrite !update_referenced_lookup. unfold w1. simpl.
  rewrite Hs. destruct (decide (s = i)) as [->|Hne].
  - rewrite list_lookup_alter_eq. rewrite bool_decide_true by done. simpl.
    destruct (stores w !! i) as [st|]; [|done]. simpl.
    destruct (references es i); simpl; by rewrite ?g_idem.
  - rewrite list_lookup_alter_ne by done. by rewrite bool_decide_false.
Qed.

Lemma loop_run_bad es e rest w :
  Forall (names_store w) es →
  (∀ s, obj_get remember_key e ≠ VStore s) →
  for_each (VObject <$> (es ++ e :: rest)) body w =
  (Throw (TypeError "not a remembered object"),
   {| stores := update_referenced g es w;
      components := components w;
      next_element := next_element w |},
   []).
Proof.
  intros Hgood Hbad. rewrite fmap_app, for_each_app. unfold bind at 1.
  rewrite (loop_run es w Hgood). rewrite fmap_cons. cbn [for_each]. unfold bind.
  by rewrite loop_bad.
Qed.
End loop.

Lemma assoc_set_idem {K V} `{EqDecision K} (k : K) (v : V) m :
  assoc_set k v (assoc_set k v m) = assoc_set k v m.
Proof.
  induction m as [|[k' v'] m IH]; simpl.
  - by rewrite decide_True.
  - destruct (decide (k = k')) as [->|Hne]; simpl.
    + by rewrite decide_True.
    + rewrite decide_False by done. by rewrite IH.
Qed.

Lemma assoc_delete_idem {K V} `{EqDecision K} (k : K) (m : list (K * V)) :
  assoc_delete k (assoc_delete k m) = assoc_delete k m.
Proof. apply assoc_delete_absent, assoc_delete_not_elem. Qed.

Lemma assoc_delete_set {K V} `{EqDecision K} (k : K) (v : V) m :
  k ∉ m.*1 → assoc_delete k (assoc_set k v m) = m.
Proof.
  unfold assoc_delete. induction m as [|[k' v'] m IH]; intros Hk.
  - simpl. rewrite filter_cons. simpl. by rewrite decide_False by (intros ?; done).
  - rewrite fmap_cons, not_elem_of_cons in Hk. destruct Hk as [Hne Hk].
    cbn [assoc_set]. rewrite decide_False by done.
    rewrite filter_cons. cbn [fst]. rewrite decide_True by done.
    by rewrite IH.
Qed.

(** The constructor, step by step. *)
Lemma new_Component_run ds tag rem items w :
  iterate rem = Ok items →
  new_Component ds tag rem w =
  let c := length (components w) in
  let r := for_each items
             (λ r, s <- entry_store r ;; get_store s ;;;
                   set_subscribers s (assoc_set c rem))
             {| stores := stores w;
                components := components w ++ [fresh_component ds w rem];
                next_element := S (next_element w) |} in
  (match outcome r with Ok _ => Ok c | Throw e => Throw e end,
   final r, ECreateElement tag (next_element w) :: events r).
Proof.
  intros Hit. unfold new_Component, bind at 1 2 3 4, createElement, alloc_component, lift.
  rewrite Hit. cbn [components stores next_element]. unfold rememberSymbol.
  destruct (for_each items _ _) as [[[[]|err] w2] evs]; simpl; [|done].
  by rewrite app_nil_r.
Qed.

Lemma new_Component_entries ds tag (es : list entry) w :
  Forall (names_store w) es →
  let c := length (components w) in
  new_Component ds tag (descriptor es) w =
  (Ok c,
   {| stores := update_referenced (assoc_set c (descriptor es)) es w;
      components := components w ++ [fresh_component ds w (descriptor es)];
      next_element := S (next_element w) |},
   [ECreateElement tag (next_element w)]).
Proof.
  intros Hgood c. rewrite (new_Component_run ds tag _ (VObject <$> es)) by done.
  cbv zeta. fold c.
  rewrite (loop_run (assoc_set c (descriptor es)) (assoc_set_idem c _) es);
    [reflexivity|done].
Qed.

(** X5. Constructing a component whose descriptor is a list of entries that
    all name existing stores returns the new component; it creates the root
    element, starts with no updater, and leaves in the registry of every
    store the descriptor references one entry for the new component, whose
    value is the whole descriptor.  Every other store is untouched. *)
Theorem constructor_registers ds tag (es : list entry) w :
  Forall (names_store w) es →
  let c := length (components w) in
  new_Component ds tag (descriptor es) w =
  (Ok c,
   {| stores := update_referenced (assoc_set c (descriptor es)) es w;
      components := components w ++ [fresh_component ds w (descriptor es)];
      next_element := S (next_element w) |},
   [ECreateElement tag (next_element w)]).
Proof. apply new_Component_entries. Qed.

Lemma constructor_registers_witness :
  outcome (new_Component ∅ "div" (descriptor [label_entry]) world_A) = Ok 1 ∧
  subscribers <$> stores (final (new_Component ∅ "div" (descriptor [label_entry]) world_A)) =
    [[(0, descriptor [label_entry]); (1, descriptor [label_entry])]].
Proof.
  rewrite (constructor_registers ∅ "div" [label_entry] world_A).
  - split; reflexivity.
  - apply Forall_singleton. exists 0. split; [reflexivity|]. vm_compute. lia.
Defined.

(** X6. When an entry of the descriptor does not hold a store, the
    constructor throws at that entry; the component it was building is by
    then registered with the stores of the entries before it, and stays
    so. *)
Theorem constructor_fails_midway ds tag (es : list entry) e rest w :
  Forall (names_store w) es →
  (∀ s, obj_get remember_key e ≠ VStore s) →
  let c := length (components w) in
  let rem := descriptor (es ++ e :: rest) in
  new_Component ds tag rem w =
  (Throw (TypeError "not a remembered object"),
   {| stores := update_referenced (assoc_set c rem) es w;
      components := components w ++ [fresh_component ds w rem];
      next_element := S (next_element w) |},
   [ECreateElement tag (next_element w)]).
Proof.
  intros Hgood Hbad c rem.
  rewrite (new_Component_run ds tag _ (VObject <$> (es ++ e :: rest))) by done.
  cbv zeta. fold c.
  rewrite (loop_run_bad (assoc_set c rem) (assoc_set_idem c _) es e rest);
    [reflexivity|done|done].
Qed.

Lemma constructor_fails_midway_witness :
  outcome (new_Component ∅ "div"
             (descriptor ([label_entry] ++ [("label", VArray [VStr "value"])] :: []))
             world_A) = Throw (TypeError "not a remembered object") ∧
  subscribers <$> stores (final (new_Component ∅ "div"
             (descriptor ([label_entry] ++ [("label", VArray [VStr "value"])] :: []))
             world_A)) =
    [[(0, descriptor [label_entry]);
      (1, descriptor [label_entry; [("label", VArray [VStr "value"])]])]].
Proof.
  rewrite (constructor_fails_midway ∅ "div" [label_entry]
             [("label", VArray [VStr "value"])] [] world_A).
  - split; reflexivity.
  - apply Forall_singleton. exists 0. split; [reflexivity|]. vm_compute. lia.
  - intros s. vm_compute. discriminate.
Defined.


(** ** Live registries *)

Section live.
Let E : event → Prop := λ _, True.
Let I : world → Prop := registry_live.

Lemma live_events (evs : list event) : Forall E evs.
Proof. by apply Forall_true. Qed.

Lemma live_same_stores {A} (m : M A) :
  (∀ w, stores (final (m w)) = stores w) →
  (∀ w, length (components w) ≤ length (components (final (m w)))) →
  keeps I E m.
Proof.
  intros Hst Hlen w HI. split; [apply live_events|].
  assert (I (final (m w))) as HI'.
  { intros s st c. rewrite Hst. intros Hs Hc. specialize (HI s st c Hs Hc).
    specialize (Hlen w). lia. }
  by destruct (outcome (m w)).
Qed.

Lemma live_set_target s t : keeps I E (set_target s t).
Proof.
  apply keeps_update. intros w HI s' st' c. simpl.
  destruct (decide (s = s')) as [<-|Hne].
  - rewrite list_lookup_alter_eq. destruct (stores w !! s) as [st|] eqn:Hs; [|done].
    intros [= <-]. simpl. by eapply HI.
  - rewrite list_lookup_alter_ne; [|done]. apply HI.
Qed.

Lemma live_set_subscribers s f :
  (∀ w (m : list (nat * value)) c,
     (∀ k, k ∈ m.*1 → k < length (components w)) →
     c ∈ (f m).*1 → c < length (components w)) →
  keeps I E (set_subscribers s f).
Proof.
  intros Hf. apply keeps_update. intros w HI s' st' c. simpl.
  destruct (decide (s = s')) as [<-|Hne].
  - rewrite list_lookup_alter_eq. destruct (stores w !! s) as [st|] eqn:Hs; [|done].
    intros [= <-]. simpl. apply Hf. intros k. by eapply HI.
  - rewrite list_lookup_alter_ne; [|done]. apply HI.
Qed.

Lemma live_forgetSymbol s c : keeps I E (forgetSymbol s c).
Proof.
  apply keeps_bind; [apply keeps_get_store|]. intros _.
  apply live_set_subscribers. intros w m c' Hm Hin. apply Hm.
  apply list_elem_of_fmap in Hin as [kv [-> Hkv]].
  apply list_elem_of_fmap. exists kv. split; [done|].
  by apply (assoc_delete_subseteq c).
Qed.

Lemma live_entry_store (J : world → Prop) r : keeps J E (entry_store r).
Proof.
  apply keeps_bind; [apply keeps_get_world|]. intros w.
  apply keeps_bind; [apply keeps_lift|]. intros x.
  destruct x; first [apply keeps_ret|apply keeps_throw].
Qed.

Lemma live_call_updater (J : world → Prop) c f u a : keeps J E (call_updater c f u a).
Proof.
  apply keeps_bind; [by apply keeps_emit|]. intros _. by apply keeps_run_updater.
Qed.

Lemma live_store_set s p v : keeps I E (store_set s p v).
Proof.
  apply keeps_bind; [apply keeps_get_store|]. intros st.
  apply keeps_bind; [apply live_set_target|]. intros _.
  apply keeps_bind; [|intros _; apply keeps_ret].
  apply keeps_for_each. intros [c' d] _.
  apply keeps_bind; [apply keeps_get_world|]. intros w.
  apply keeps_bind; [apply keeps_lift|]. intros fs.
  apply keeps_for_each. intros f _.
  apply keeps_bind; [apply keeps_get_component|]. intros comp.
  destruct (updaters comp !! f); [apply live_call_updater|apply keeps_ret].
Qed.

Lemma live_modify_component c f : keeps I E (modify_component c f).
Proof.
  apply live_same_stores; [done|]. intros w. unfold final. simpl.
  by rewrite length_alter.
Qed.

(** Registering a component that exists. *)
Lemma live_rememberSymbol s c d :
  keeps (λ w, I w ∧ c < length (components w)) E (rememberSymbol s c d).
Proof.
  apply keeps_bind; [apply keeps_get_store|]. intros _.
  apply keeps_update. intros w [HI Hc]. split; [|done].
  intros s' st' c'. simpl. destruct (decide (s = s')) as [<-|Hne].
  - rewrite list_lookup_alter_eq. destruct (stores w !! s) as [st|] eqn:Hs; [|done].
    intros [= <-]. simpl. rewrite assoc_set_keys. case_decide; [by eapply HI|].
    rewrite elem_of_app. intros [Hin|Hin]; [by eapply HI|].
    by apply list_elem_of_singleton in Hin as ->.
  - rewrite list_lookup_alter_ne; [|done]. apply HI.
Qed.

Lemma live_new_Component ds tag rem : keeps I E (new_Component ds tag rem).
Proof.
  unfold new_Component.
  apply keeps_bind; [by apply live_same_stores|]. intros el.
  eapply hoare_bind with (Q := λ this w, I w ∧ this < length (components w)).
  { intros w HI. split; [apply live_events|].
    unfold outcome, final, alloc_component, I, registry_live. simpl. split.
    - intros s st c Hs Hc. rewrite length_app. specialize (HI s st c Hs Hc). lia.
    - rewrite length_app. simpl. lia. }
  intros this.
  eapply hoare_weaken with (P' := λ w, I w ∧ this < length (components w))
                           (Q' := λ _ w, I w ∧ this < length (components w))
                           (X' := λ w, I w ∧ this < length (components w))
                           (E' := E);
    [|done|by intros _ w [? ?]|by intros w [? ?]|done].
  apply keeps_bind; [apply keeps_lift|]. intros items.
  apply keeps_bind; [|intros _; apply keeps_ret].
  apply keeps_for_each. intros r _.
  apply keeps_bind; [apply live_entry_store|]. intros s'.
  apply live_rememberSymbol.
Qed.

Lemma live_setUpdater this f u : keeps I E (setUpdater this f u).
Proof.
  apply keeps_bind; [apply live_call_updater|]. intros _.
  apply keeps_bind; [apply keeps_get_component|]. intros _.
  apply live_modify_component.
Qed.

Lemma live_bind_field b this f element : keeps I E (bind_field b this f element).
Proof.
  destruct b; simpl.
  all: apply keeps_bind; [|intros el; apply live_setUpdater].
  all: apply keeps_bind; [apply keeps_get_component|]; intros comp; apply keeps_ret.
Qed.

Lemma live_destroy this : keeps I E (destroy this).
Proof.
  apply keeps_bind; [apply keeps_get_component|]. intros comp.
  apply keeps_bind; [by apply keeps_emit|]. intros _.
  apply keeps_bind; [apply live_modify_component|]. intros _.
  apply keeps_bind; [apply live_modify_component|]. intros _.
  apply keeps_bind; [apply keeps_lift|]. intros items.
  apply keeps_for_each. intros r _.
  apply keeps_bind; [apply live_entry_store|]. intros s'.
  apply live_forgetSymbol.
Qed.

Lemma live_register_op s c rem : keeps I E (get_component c ;;; rememberSymbol s c rem).
Proof.
  eapply hoare_bind with (Q := λ _ w, I w ∧ c < length (components w)).
  { intros w HI. split; [apply live_events|].
    unfold outcome, final, get_component.
    destruct (components w !! c) as [comp|] eqn:Hc; simpl; [|done].
    split; [done|]. by eapply lookup_lt_Some. }
  intros _.
  eapply hoare_weaken with (P' := λ w, I w ∧ c < length (components w))
                           (Q' := λ _ w, I w ∧ c < length (components w))
                           (X' := λ w, I w ∧ c < length (components w))
                           (E' := E);
    [apply live_rememberSymbol|done|by intros _ w [? ?]|by intros w [? ?]|done].
Qed.

Lemma live_step o : keeps I E (step o).
Proof.
  destruct o; simpl.
  - apply keeps_discard. intros w HI. split; [apply live_events|].
    intros s st c. simpl. rewrite lookup_app.
    destruct (stores w !! s) as [st0|] eqn:Hs.
    + intros [= <-]. by eapply HI.
    + destruct (s - length (stores w)) as [|n]; simpl; [|done].
      intros [= <-]. simpl. intros Hin. by apply elem_of_nil in Hin.
  - apply keeps_discard, live_new_Component.
  - apply live_bind_field.
  - apply live_setUpdater.
  - apply keeps_discard. apply keeps_bind; [apply keeps_get_store|].
    intros st. apply keeps_ret.
  - apply keeps_discard, live_store_set.
  - apply live_register_op.
  - apply keeps_bind; [apply keeps_get_component|]. intros _. apply live_forgetSymbol.
  - apply live_destroy.
Qed.
End live.

Lemma reachable_registry_live w : reachable w → registry_live w.
Proof.
  intros [ops <-].
  apply (run_ops_keeps registry_live (λ _, True)).
  - apply Forall_forall. intros o _. apply live_step.
  - intros s st c. simpl. by rewrite lookup_nil.
Qed.


(** ** [destroy] in closed form *)

Lemma update_referenced_twice g es w w' :
  (∀ m, g (g m) = g m) →
  stores w' = update_referenced g es w →
  update_referenced g es w' = update_referenced g es w.
Proof.
  intros Hg Hw'. apply list_eq. intros s.
  rewrite update_referenced_lookup, Hw', update_referenced_lookup.
  destruct (stores w !! s) as [st|]; [|done]. simpl.
  destruct (references es s); simpl; by rewrite ?Hg.
Qed.

Lemma update_referenced_undo c d es w w' :
  (∀ s st, stores w !! s = Some st → c ∉ (subscribers st).*1) →
  stores w' = update_referenced (assoc_set c d) es w →
  update_referenced (assoc_delete c) es w' = stores w.
Proof.
  intros Hfresh Hw'. apply list_eq. intros s.
  rewrite update_referenced_lookup, Hw', update_referenced_lookup.
  destruct (stores w !! s) as [st|] eqn:Hs; [|done]. simpl.
  destruct (references es s); simpl; [|done].
  rewrite assoc_delete_set; [|by eapply Hfresh]. by destruct st.
Qed.

Lemma destroy_closed c w comp (es : list entry) :
  components w !! c = Some comp →
  remembered comp = descriptor es →
  Forall (names_store w) es →
  destroy c w =
  (Ok tt,
   {| stores := update_referenced (assoc_delete c) es w;
      components := <[c := destroyed comp]> (components w);
      next_element := next_element w |},
   [ERemove (root comp)]).
Proof.
  intros Hc Hrem Hgood. rewrite (destroy_run _ _ _ Hc), Hrem. cbv zeta.
  cbn [iterate descriptor].
  set (w1 := {| stores := stores w; components := alter _ c (alter _ c (components w)) |}).
  change (λ r : value, s <- entry_store r;; forgetSymbol s c)
    with (λ r, s <- entry_store r ;; get_store s ;;; set_subscribers s (assoc_delete c)).
  rewrite (loop_run (assoc_delete c) (assoc_delete_idem c) es w1 Hgood).
  unfold outcome, final, events. simpl. do 2 f_equal. f_equal.
  apply list_eq. intros i. destruct (decide (i = c)) as [->|Hne].
  - rewrite !list_lookup_alter_eq, Hc, list_lookup_insert_eq by by eapply lookup_lt_Some.
    simpl. unfold destroyed. by rewrite Object_assign_empty.
  - by rewrite !list_lookup_alter_ne, list_lookup_insert_ne.
Qed.

(** X8. Destroying a component a second time changes nothing: the call
    returns normally, asks again for the removal of the root node, and leaves
    the world exactly as the first call left it. *)
Theorem destroy_twice c w comp (es : list entry) :
  components w !! c = Some comp →
  remembered comp = descriptor es →
  Forall (names_store w) es →
  let w1 := final (destroy c w) in
  destroy c w1 = (Ok tt, w1, [ERemove (root comp)]).
Proof.
  intros Hc Hrem Hgood w1.
  assert (w1 = {| stores := update_referenced (assoc_delete c) es w;
                  components := <[c := destroyed comp]> (components w);
                  next_element := next_element w |}) as Hw1.
  { unfold w1. by rewrite (destroy_closed c w comp es). }
  assert (c < length (components w)) as Hlt by by eapply lookup_lt_Some.
  clearbody w1. subst w1.
  rewrite (destroy_closed c _ (destroyed comp) es).
  - simpl. do 2 f_equal. f_equal.
    + by apply update_referenced_twice; [apply assoc_delete_idem|].
    + by rewrite list_insert_insert_eq.
  - simpl. by apply list_lookup_insert_eq.
  - done.
  - eapply Forall_impl; [exact Hgood|]. intros e. apply names_store_same.
    simpl. apply update_referenced_length.
Qed.

Lemma destroy_twice_witness :
  outcome (destroy 0 (final (destroy 0 world_entry))) = Ok tt ∧
  final (destroy 0 (final (destroy 0 world_entry))) = final (destroy 0 world_entry).
Proof.
  rewrite (destroy_twice 0 world_entry
             {| dataSources := {["label" := read_store 0 "value"]};
                updaters := {["label" := UInnerText 0 "label" 0]};
                root := 0;
                remembered := descriptor [label_entry] |}
             [label_entry]).
  - split; reflexivity.
  - reflexivity.
  - reflexivity.
  - apply Forall_singleton. exists 0. split; [reflexivity|]. vm_compute. lia.
Defined.

(** X7. In a reachable world, constructing a component over a descriptor
    whose entries all name existing stores and destroying it at once gives
    every store back the registry it had: construction and destruction
    together leave no trace in any store. *)
Theorem construct_destroy_restores ds tag (es : list entry) w :
  reachable w →
  Forall (names_store w) es →
  let r := (c <- new_Component ds tag (descriptor es) ;; destroy c) w in
  outcome r = Ok tt ∧
  stores (final r) = stores w ∧
  components (final r) = components w ++ [fresh_component ds w (descriptor es)] ∧
  events r = [ECreateElement tag (next_element w); ERemove (next_element w)].
Proof.
  intros Hreach Hgood r. subst r.
  pose proof (reachable_registry_live w Hreach) as Hlive.
  unfold bind. rewrite (new_Component_entries ds tag es w Hgood).
  set (c := length (components w)).
  set (w1 := {| stores := update_referenced _ es w |}).
  rewrite (destroy_closed c w1 (fresh_component ds w (descriptor es)) es).
  - unfold outcome, final, events. simpl. split_and!; [done| |  |done].
    + apply (update_referenced_undo c (descriptor es) es w w1); [|done].
      intros s st Hs Hin. specialize (Hlive s st c Hs Hin). unfold c in Hlive. lia.
    + unfold c. rewrite insert_app_r_alt, Nat.sub_diag by done. done.
  - unfold w1, c. simpl. by rewrite lookup_app_r, Nat.sub_diag.
  - done.
  - eapply Forall_impl; [exact Hgood|]. intros e. apply names_store_same.
    unfold w1. simpl. apply update_referenced_length.
Qed.

Lemma construct_destroy_restores_witness :
  stores (final ((c <- new_Component ∅ "div" (descriptor [label_entry]) ;; destroy c)
                   world_A)) = stores world_A.
Proof.
  destruct (construct_destroy_restores ∅ "div" [label_entry] world_A) as (_ & Hst & _).
  - exists program_A. reflexivity.
  - apply Forall_singleton. exists 0. split; [reflexivity|]. vm_compute. lia.
  - exact Hst.
Defined.


(** ** What no call changes in a component *)

Section fixed.
Variables (c : nat) (comp : component).
Let E : event → Prop := λ _, True.
Let I : world → Prop := same_fixed_fields c comp.

Lemma fixed_same_components {A} (m : M A) :
  (∀ w, components (final (m w)) = components w) → keeps I E m.
Proof.
  intros Hc w HI. split; [by apply Forall_true|].
  assert (I (final (m w))) as HI'.
  { destruct HI as (comp' & Hcomp & ?). exists comp'. by rewrite Hc. }
  by destruct (outcome (m w)).
Qed.

Lemma fixed_modify_component c' f :
  (∀ x, dataSources (f x) = dataSources x ∧ root (f x) = root x ∧
        remembered (f x) = remembered x) →
  keeps I E (modify_component c' f).
Proof.
  intros Hf. apply keeps_update. intros w (comp' & Hc & Hds & Hroot & Hrem).
  unfold I, same_fixed_fields. simpl. destruct (decide (c' = c)) as [->|Hne].
  - exists (f comp'). rewrite list_lookup_alter_eq, Hc.
    destruct (Hf comp') as (-> & -> & ->). done.
  - exists comp'. by rewrite list_lookup_alter_ne.
Qed.

Lemma fixed_alloc_component x : keeps I E (alloc_component x).
Proof.
  apply keeps_update. intros w (comp' & Hc & ?). exists comp'.
  split; [|done]. simpl. by apply lookup_app_l_Some.
Qed.

Lemma fixed_registry_op s g : keeps I E (get_store s ;;; set_subscribers s g).
Proof.
  apply keeps_bind; [apply keeps_get_store|]. intros _.
  by apply fixed_same_components.
Qed.

Lemma fixed_entry_store r : keeps I E (entry_store r).
Proof.
  apply keeps_bind; [apply keeps_get_world|]. intros w.
  apply keeps_bind; [apply keeps_lift|]. intros x.
  destruct x; first [apply keeps_ret|apply keeps_throw].
Qed.

Lemma fixed_call_updater c' f u a : keeps I E (call_updater c' f u a).
Proof.
  apply keeps_bind; [by apply keeps_emit|]. intros _. by apply keeps_run_updater.
Qed.

Lemma fixed_store_set s p v : keeps I E (store_set s p v).
Proof.
  apply keeps_bind; [apply keeps_get_store|]. intros st.
  apply keeps_bind; [by apply fixed_same_components|]. intros _.
  apply keeps_bind; [|intros _; apply keeps_ret].
  apply keeps_for_each. intros [c' d] _.
  apply keeps_bind; [apply keeps_get_world|]. intros w.
  apply keeps_bind; [apply keeps_lift|]. intros fs.
  apply keeps_for_each. intros f _.
  apply keeps_bind; [apply keeps_get_component|]. intros x.
  destruct (updaters x !! f); [apply fixed_call_updater|apply keeps_ret].
Qed.

Lemma fixed_new_Component ds tag rem : keeps I E (new_Component ds tag rem).
Proof.
  apply keeps_bind; [by apply fixed_same_components|]. intros el.
  apply keeps_bind; [apply fixed_alloc_component|]. intros this.
  apply keeps_bind; [apply keeps_lift|]. intros items.
  apply keeps_bind; [|intros _; apply keeps_ret].
  apply keeps_for_each. intros r _.
  apply keeps_bind; [apply fixed_entry_store|]. intros s.
  apply fixed_registry_op.
Qed.

Lemma fixed_setUpdater this f u : keeps I E (setUpdater this f u).
Proof.
  apply keeps_bind; [apply fixed_call_updater|]. intros _.
  apply keeps_bind; [apply keeps_get_component|]. intros _.
  by apply fixed_modify_component.
Qed.

Lemma fixed_bind_field b this f element : keeps I E (bind_field b this f element).
Proof.
  destruct b; simpl.
  all: apply keeps_bind; [|intros el; apply fixed_setUpdater].
  all: apply keeps_bind; [apply keeps_get_component|]; intros x; apply keeps_ret.
Qed.

Lemma fixed_destroy this : keeps I E (destroy this).
Proof.
  apply keeps_bind; [apply keeps_get_component|]. intros x.
  apply keeps_bind; [by apply keeps_emit|]. intros _.
  apply keeps_bind; [by apply fixed_modify_component|]. intros _.
  apply keeps_bind.
  { apply fixed_modify_component. intros y. simpl.
    by rewrite Object_assign_empty. }
  intros _.
  apply keeps_bind; [apply keeps_lift|]. intros items.
  apply keeps_for_each. intros r _.
  apply keeps_bind; [apply fixed_entry_store|]. intros s.
  apply fixed_registry_op.
Qed.

Lemma fixed_step o : keeps I E (step o).
Proof.
  destruct o; simpl.
  - apply keeps_discard. by apply fixed_same_components.
  - apply keeps_discard, fixed_new_Component.
  - apply fixed_bind_field.
  - apply fixed_setUpdater.
  - apply keeps_discard. apply keeps_bind; [apply keeps_get_store|].
    intros st. apply keeps_ret.
  - apply keeps_discard, fixed_store_set.
  - apply keeps_bind; [apply keeps_get_component|]. intros _. apply fixed_registry_op.
  - apply keeps_bind; [apply keeps_get_component|]. intros _. apply fixed_registry_op.
  - apply fixed_destroy.
Qed.
End fixed.

(** X9. Whatever calls a program makes -- writes, bindings, registrations,
    constructions, destructions, of this component or of any other -- a
    component keeps the data sources, the root element and the descriptor it
    was constructed with: only its updater map ever changes. *)
Theorem component_fields_fixed c comp ops w :
  components w !! c = Some comp →
  ∃ comp', components (run_ops ops w).1 !! c = Some comp' ∧
           dataSources comp' = dataSources comp ∧
           root comp' = root comp ∧
           remembered comp' = remembered comp.
Proof.
  intros Hc.
  destruct (run_ops_keeps (same_fixed_fields c comp) (λ _, True) ops w) as [HI _].
  - apply Forall_forall. intros o _. apply fixed_step.
  - by exists comp.
  - exact HI.
Qed.

Lemma component_fields_fixed_witness :
  ∃ comp', components (run_ops [ODestroy 0; OWrite 0 "value" (VNum 1)] world_A).1 !! 0
             = Some comp' ∧
           dataSources comp' = {["label" := read_store 0 "value"]} ∧
           root comp' = 0 ∧
           remembered comp' = descriptor [label_entry].
Proof.
  exact (component_fields_fixed 0
           {| dataSources := {["label" := read_store 0 "value"]};
              updaters := {["label" := UInnerText 0 "label" 0]};
              root := 0;
              remembered := descriptor [label_entry] |}
           [ODestroy 0; OWrite 0 "value" (VNum 1)] world_A eq_refl).
Defined.

(** ** Binding a field again *)

Lemma with_updater_twice comp f u1 u2 :
  with_updater (with_updater comp f u1) f u2 = with_updater comp f u2.
Proof. unfold with_updater. simpl. by rewrite insert_insert_eq. Qed.

(** What a built-in updater does is not changed by a binding: it depends
    on the data sources and the stores, not on the updater map. *)
Lemma run_updater_rebound b this f el w comp g u :
  components w !! this = Some comp →
  let w1 := {| stores := stores w;
               components := <[this := with_updater comp g u]> (components w);
               next_element := next_element w |} in
  outcome (run_updater (make_updater b this f el) w1) =
    outcome (run_updater (make_updater b this f el) w) ∧
  events (run_updater (make_updater b this f el) w1) =
    events (run_updater (make_updater b this f el) w).
Proof.
  intros Hc w1.
  assert (components w1 !! this = Some (with_updater comp g u)) as Hc1.
  { unfold w1. simpl. apply list_lookup_insert_eq. by eapply lookup_lt_Some. }
  rewrite (run_updater_builtin _ _ _ _ _ _ Hc), (run_updater_builtin _ _ _ _ _ _ Hc1).
  change (lookup_data_source (with_updater comp g u) f) with (lookup_data_source comp f).
  change (stores w1) with (stores w).
  destruct (lookup_data_source comp f) as [ds|]; [|done].
  by destruct (call_data_source ds (stores w)).
Qed.

(** X10. Binding a field that is already bound replaces its updater.  When
    the two updaters can run, after two bindings of the same field the
    updater map holds the second updater for it and is otherwise as before
    the first, and each of the two updaters has been called once, in the
    order of the bindings.  When the call of the first updater throws, the
    error goes up after that one call: nothing is bound and the second
    binding is not reached. *)
Theorem rebinding_replaces b1 b2 this f el1 el2 w comp :
  components w !! this = Some comp →
  let u1 := make_updater b1 this f (default (root comp) el1) in
  let u2 := make_updater b2 this f (default (root comp) el2) in
  let r := (bind_field b1 this f el1 ;;; bind_field b2 this f el2) w in
  (updater_live w u1 → updater_live w u2 →
     outcome r = Ok tt ∧
     components (final r) = <[this := with_updater comp f u2]> (components w) ∧
     updaters (with_updater comp f u2) = <[f := u2]> (updaters comp) ∧
     stores (final r) = stores w ∧
     List.filter is_invoke (events r) =
       [EInvoke this f VUndefined; EInvoke this f VUndefined]) ∧
  (∀ err, outcome (run_updater u1 w) = Throw err →
     outcome r = Throw err ∧
     final r = w ∧
     List.filter is_invoke (events r) = [EInvoke this f VUndefined]).
Proof.
  intros Hc u1 u2 r. subst r.
  assert (this < length (components w)) as Hlt by by eapply lookup_lt_Some.
  assert (∀ u w0, List.filter is_invoke (events (run_updater u w0)) = []) as Hnone.
  { intros u w0. pose proof (run_updater_events u w0) as Hev.
    induction (events (run_updater u w0)) as [|e evs IH]; [done|].
    apply Forall_cons in Hev as [He Hev]. simpl. rewrite (IH Hev). by destruct e. }
  unfold bind. rewrite (bind_field_unfold _ _ _ _ _ _ Hc). fold u1.
  rewrite (setUpdater_run this f u1 w comp Hc).
  split.
  - unfold updater_live. intros Hlive1 Hlive2. rewrite Hlive1.
    set (w1 := {| stores := stores w |}).
    assert (components w1 !! this = Some (with_updater comp f u1)) as Hc1.
    { unfold w1. simpl. by apply list_lookup_insert_eq. }
    rewrite (bind_field_unfold _ _ _ _ _ _ Hc1). cbn [with_updater root]. fold u2.
    rewrite (setUpdater_run this f u2 w1 _ Hc1).
    destruct (run_updater_rebound b2 this f (default (root comp) el2) w comp f u1 Hc)
      as [Hout Hev].
    fold u2 w1 in Hout, Hev. rewrite Hout, Hev, Hlive2.
    unfold outcome, final, events. simpl. split_and!; [done| |done|done|].
    + by rewrite list_insert_insert_eq, with_updater_twice.
    + rewrite List.filter_app. simpl.
      pose proof (Hnone u1 w) as H1. pose proof (Hnone u2 w) as H2.
      unfold events in H1, H2. by rewrite H1, H2.
  - intros err Herr. rewrite Herr. unfold outcome, final, events. simpl.
    pose proof (Hnone u1 w) as H1. unfold events in H1. by rewrite H1.
Qed.

Lemma rebinding_replaces_witness :
  ∃ comp', components (final ((bind_field BInnerText 0 "label" None ;;;
                               bind_field (BAttribute "title") 0 "label" None)
                                world_A)) !! 0 = Some comp' ∧
           updaters comp' !! "label" = Some (UAttribute 0 "title" "label" 0).
Proof.
  destruct (rebinding_replaces BInnerText (BAttribute "title") 0 "label" None None
              world_A
              {| dataSources := {["label" := read_store 0 "value"]};
                 updaters := {["label" := UInnerText 0 "label" 0]};
                 root := 0;
                 remembered := descriptor [label_entry] |} eq_refl)
    as [Hbound _].
  destruct Hbound as (_ & Hcomps & _); [reflexivity|reflexivity|].
  rewrite Hcomps. eexists. split; reflexivity.
Defined.

(** ** Registering and deregistering *)

(** X11. Registering a component that a store does not hold and then
    deregistering it leaves the world exactly as it was; and neither call
    touches the entry the store holds for any other component. *)
Theorem register_forget_round_trip s c d w st :
  stores w !! s = Some st →
  c ∉ (subscribers st).*1 →
  (rememberSymbol s c d ;;; forgetSymbol s c) w = (Ok tt, w, []) ∧
  (∀ c', c' ≠ c →
     assoc_get c' (assoc_set c d (subscribers st)) = assoc_get c' (subscribers st) ∧
     assoc_get c' (assoc_delete c (subscribers st)) = assoc_get c' (subscribers st)).
Proof.
  intros Hs Hc. split.
  - unfold bind at 1, rememberSymbol, forgetSymbol, bind, get_store, set_subscribers.
    rewrite Hs. simpl. rewrite list_lookup_alter_eq, Hs. simpl.
    rewrite list_alter_alter_eq. rewrite list_alter_same.
    + by rewrite world_eta.
    + intros st' Hst'. rewrite Hs in Hst'. injection Hst' as <-. simpl.
      rewrite assoc_delete_set by done. by destruct st.
  - intros c' Hne. split; [by apply assoc_get_set_ne|].
    unfold assoc_delete. clear Hs Hc.
    induction (subscribers st) as [|[k x] m IH]; [done|].
    rewrite filter_cons. cbn [fst]. destruct (decide (k ≠ c)) as [Hk|Hk].
    + simpl. by rewrite IH.
    + apply dec_stable in Hk as ->. simpl. by rewrite decide_False.
Qed.

Lemma register_forget_round_trip_witness :
  (rememberSymbol 0 7 VNull ;;; forgetSymbol 0 7) world_A = (Ok tt, world_A, []).
Proof.
  destruct (register_forget_round_trip 0 7 VNull world_A
              {| initialData := plain [("value", VNum 0)];
                 subscribers := [(0, descriptor [label_entry])] |}) as [Hrt _].
  - reflexivity.
  - apply (bool_decide_unpack _). by vm_compute.
  - exact Hrt.
Defined.


(** ** More on delegation *)

(** X12. [delegate] returns the empty descriptor exactly when [in] finds no
    source name of the mappings in any entry of the descriptor: no entry
    declares a source field, and no source name is one that every object
    inherits -- in particular when there are no mappings, or no entries. *)
Theorem delegate_no_match (D : list entry) fields :
  delegate D fields = [] ↔
  (∀ r field, r ∈ D → field ∈ fields →
              (source field ∉ r.*1) ∧ inherited (source field) = None).
Proof.
  unfold delegate. rewrite delegate_filter. split.
  - intros Hnil r field Hr Hfield.
    apply fmap_nil_inv in Hnil.
    assert (¬ finds_some fields r) as Hnot.
    { intros Hfinds.
      assert (r ∈ filter (finds_some fields) D) as Hin by by apply list_elem_of_filter.
      rewrite Hnil in Hin. by apply elem_of_nil in Hin. }
    split.
    + intros Hown. apply Hnot, Exists_exists. exists field. split; [done|by left].
    + destruct (inherited (source field)) as [v|] eqn:Hinh; [|done].
      destruct Hnot. apply Exists_exists. exists field. split; [done|].
      right. rewrite Hinh. by eexists.
  - intros Hnone.
    assert (filter (finds_some fields) D = []) as ->; [|done].
    induction D as [|r D IH]; [done|].
    rewrite filter_cons. rewrite decide_False.
    + apply IH. intros r' field Hr'. apply Hnone. by right.
    + intros Hfinds. apply Exists_exists in Hfinds as (field & Hin & Hk).
      destruct (Hnone r field) as [Hown Hinh]; [left|done|].
      destruct Hk as [Hk|Hk]; [done|]. rewrite Hinh in Hk. by destruct Hk.
Qed.

Lemma delegate_no_match_witness :
  delegate [[(remember_key, VStore 0); ("name", VArray [VStr "value"])]] [] = [] ∧
  delegate [[(remember_key, VStore 0); ("name", VArray [VStr "value"])]]
           [Mapping "age" "years"] = [].
Proof.
  split.
  - apply delegate_no_match. intros r field _ Hin. by apply elem_of_nil in Hin.
  - apply delegate_no_match. intros r field Hr Hin.
    apply list_elem_of_singleton in Hr as ->.
    apply list_elem_of_singleton in Hin as ->.
    split; [|reflexivity].
    apply (bool_decide_unpack _). by vm_compute.
Defined.











(** ** Writes, end to end *)







(** ** Components over delegated descriptors *)

Lemma delegate_entry_store fields r :
  remember_key ∉ target <$> fields →
  obj_get remember_key (delegate_entry fields r) = obj_get remember_key r.
Proof.
  intros Hkey. rewrite delegate_entry_assign. unfold obj_get at 1.
  rewrite delegate_assign_other by done. cbn [assoc_get].
  by rewrite decide_True.
Qed.

Lemma references_delegate (D : list entry) fields s :
  remember_key ∉ target <$> fields →
  references (delegate D fields) s =
  references (List.filter (delegate_keeps fields) D) s.
Proof.
  intros Hkey. unfold delegate.
  induction (List.filter (delegate_keeps fields) D) as [|r kept IH]; [done|].
  simpl. by rewrite delegate_entry_store, IH.
Qed.

(** X16. A component constructed over [delegate D fields], where the
    entries of [D] name existing stores and no target name is
    ['_#remember'], is registered with exactly the stores of those entries of
    [D] in which [in] finds a source name of [fields] -- as a field the entry
    declares, or as a name that every object inherits -- and with no
    other. *)
Theorem delegated_component_registers ds tag (D : list entry) fields w :
  Forall (names_store w) D →
  remember_key ∉ target <$> fields →
  let c := length (components w) in
  let rem := descriptor (delegate D fields) in
  outcome (new_Component ds tag rem w) = Ok c ∧
  stores (final (new_Component ds tag rem w)) =
    update_referenced (assoc_set c rem) (filter (finds_some fields) D) w.
Proof.
  intros Hgood Hkey c rem.
  assert (Forall (names_store w) (delegate D fields)) as Hgood'.
  { unfold delegate. apply Forall_fmap.
    assert (Forall (names_store w) (List.filter (delegate_keeps fields) D)) as Hkept.
    { apply Forall_forall. intros r Hr. apply list_elem_of_In, filter_In in Hr as [Hr _].
      rewrite Forall_forall in Hgood. apply Hgood. by apply list_elem_of_In. }
    eapply Forall_impl; [exact Hkept|]. intros r (s & Hs & Hlt). exists s.
    simpl. by rewrite delegate_entry_store. }
  unfold rem. rewrite (new_Component_entries ds tag _ w Hgood').
  unfold outcome, final. simpl. split; [done|].
  apply list_eq. intros s. rewrite !update_referenced_lookup.
  by rewrite references_delegate, delegate_filter.
Qed.

Lemma delegated_component_registers_witness :
  subscribers <$> stores (final (new_Component ∅ "span"
      (descriptor (delegate [label_entry] [Mapping "label" "text"])) world_A)) =
    [[(0, descriptor [label_entry]);
      (1, descriptor [[(remember_key, VStore 0); ("text", VArray [VStr "value"])]])]].
Proof.
  destruct (delegated_component_registers ∅ "span" [label_entry]
              [Mapping "label" "text"] world_A) as [_ Hst].
  - apply Forall_singleton. exists 0. split; [reflexivity|]. vm_compute. lia.
  - apply (bool_decide_unpack _). by vm_compute.
  - rewrite Hst. reflexivity.
Defined.
